(** * resurgo / prologo: function-entry detection in raw machine code

    A shallow embedding of the linear scanners (prologue detection,
    call-site detection) and of the fusion step [DetectFunctions], with the
    properties the specification states about them.

    The two disassemblers ([x86asm.Decode], [arm64asm.Decode]) are external
    libraries: the scanners are parametric in them.  Addresses are [uint64]
    values, modelled as [Z] with the wrap-around written out. *)

From Stdlib Require Import ZArith Lia HexString.
From Stdlib.Strings Require Import Byte.
From stdpp Require Import gmap list strings sorting.

(** ** Machine integers *)

Definition uint64 (z : Z) : Z := (z mod 2 ^ 64)%Z.

Definition is_uint64 (z : Z) : Prop := (0 <= z < 2 ^ 64)%Z.

#[global] Instance byte_eq_dec : EqDecision byte := Byte.byte_eq_dec.

(** ** The decoded-instruction views of the two disassembler libraries *)

(** What the scanners read of [x86asm.Inst]: the opcode, the operand array
    and the encoded length.  Registers and opcodes the scanners never name
    are kept as numbered leftovers. *)
Module x86asm.

(** [NoReg] is the zero value of [x86asm.Reg] (no register). *)
Inductive Reg := NoReg | RAX | RBX | RSP | RBP | RIP | OtherReg (n : N).

Inductive Opcode := CALL | JMP | LEA | MOV | NOP | PUSH | RET | SUB | OtherOp (n : N).

Record Mem := { Segment : Reg; Base : Reg; Scale : N; Index : Reg; Disp : Z }.

(** The [Arg] interface: [ANil] is the nil interface of an unused slot,
    [AImm] carries an [int64], [ARel] an [int32]. *)
Inductive Arg := ANil | AReg (r : Reg) | AMem (m : Mem) | AImm (i : Z) | ARel (r : Z).

Record Inst := { Op : Opcode; Args : list Arg; Len : nat }.

(** [inst.Args[i]] on the fixed-size operand array. *)
Definition arg (i : nat) (inst : Inst) : Arg := nth i (Args inst) ANil.

#[global] Instance Reg_eq_dec : EqDecision Reg.
Proof. solve_decision. Defined.
#[global] Instance Opcode_eq_dec : EqDecision Opcode.
Proof. solve_decision. Defined.
#[global] Instance Mem_eq_dec : EqDecision Mem.
Proof. solve_decision. Defined.
#[global] Instance Arg_eq_dec : EqDecision Arg.
Proof. solve_decision. Defined.

End x86asm.

(** What the scanners read of [arm64asm.Inst]. *)
Module arm64asm.

Inductive Opcode := B | BL | BLR | BR | RET | STP | MOV | SUB | NOP | OtherOp (n : N).

(** General registers by number ([X 29], [X 30]); [SP] is the stack
    pointer operand ([arm64asm.RegSP]). *)
Inductive Reg := X (n : nat) | SP.

(** [APCRel] carries an [int64] byte offset, [ACond] a condition code,
    [AMemPre] a pre-indexed memory operand [[base, #imm]!]. *)
Inductive Arg :=
| ANil
| AReg (r : Reg)
| AImm (i : Z)
| APCRel (off : Z)
| ACond (c : N)
| AMemPre (base : Reg) (imm : Z)
| AOther.

Record Inst := { Op : Opcode; Args : list Arg }.

Definition arg (i : nat) (inst : Inst) : Arg := nth i (Args inst) ANil.

#[global] Instance Reg_eq_dec : EqDecision Reg.
Proof. solve_decision. Defined.
#[global] Instance Opcode_eq_dec : EqDecision Opcode.
Proof. solve_decision. Defined.
#[global] Instance Arg_eq_dec : EqDecision Arg.
Proof. solve_decision. Defined.

End arm64asm.

(** ** Records of the package *)

Inductive CallSiteType := CallSiteCall | CallSiteJump.

Inductive AddressingMode :=
| AddressingModePCRelative
| AddressingModeAbsolute
| AddressingModeRegisterIndirect.

Inductive Confidence := ConfidenceHigh | ConfidenceMedium | ConfidenceLow | ConfidenceNone.

Inductive DetectionType :=
| DetectionPrologueOnly
| DetectionCallTarget
| DetectionJumpTarget
| DetectionBoth.

(** The first four are the constants of the source.  Modelled from the
    spec: the three ARM64 kinds, whose declaration is not among the
    sources, are those of section 3 (StpFramePair, StpOnly, SubSp). *)
Inductive PrologueType :=
| PrologueClassic
| PrologueNoFramePointer
| ProloguePushOnly
| PrologueLEABased
| PrologueSTPFramePair
| PrologueSTPOnly
| PrologueSubSP.

#[global] Instance CallSiteType_eq_dec : EqDecision CallSiteType.
Proof. solve_decision. Defined.
#[global] Instance AddressingMode_eq_dec : EqDecision AddressingMode.
Proof. solve_decision. Defined.
#[global] Instance Confidence_eq_dec : EqDecision Confidence.
Proof. solve_decision. Defined.
#[global] Instance DetectionType_eq_dec : EqDecision DetectionType.
Proof. solve_decision. Defined.
#[global] Instance PrologueType_eq_dec : EqDecision PrologueType.
Proof. solve_decision. Defined.

Module Prologue.
Record t := { Address : Z; Type_ : PrologueType; Instructions : string }.
End Prologue.

Module CallSiteEdge.
Record t := {
  SourceAddr : Z;
  TargetAddr : Z;
  Type_ : CallSiteType;
  AddressMode : AddressingMode;
  Confidence : Confidence;
}.
End CallSiteEdge.

Module FunctionCandidate.
Record t := {
  Address : Z;
  DetectionType : DetectionType;
  PrologueType : option PrologueType;
  CalledFrom : list Z;
  JumpedFrom : list Z;
  Confidence : Confidence;
}.
End FunctionCandidate.

(** Modelled from the spec: the declaration of the architecture tag is not
    among the sources.  Section 3: a closed set AMD64, ARM64.  In Go it is
    a string type (the tests build [Arch("mips")]): the two named constants
    are constructors and every other token is [ArchOther]. *)
Inductive Arch := ArchAMD64 | ArchARM64 | ArchOther (token : string).

(** ** Results

    A Go function returning [(value, error)] yields [Ok] or [Err].  The
    scanning loops advance by the length the decoder reports; [Diverges]
    stands for a loop that never exits, which needs a decoder reporting
    length zero. *)
Inductive res (A : Type) :=
| Ok (a : A)
| Err (msg : string)
| Diverges.

Arguments Ok {A} a.
Arguments Err {A} msg.
Arguments Diverges {A}.

Definition of_loop {A} (o : option A) : res A :=
  match o with
  | Some a => Ok a
  | None => Diverges
  end.

(** ** Call-site detection *)

(** The CET landing-pad test at the head of the AMD64 loop:
    [f3 0f 1e fa] (ENDBR64) or [f3 0f 1e fb] (ENDBR32). *)
Definition isENDBR (code : list byte) (offset : nat) : bool :=
  bool_decide (offset + 4 <= length code) &&
  match code !! offset, code !! (offset + 1), code !! (offset + 2), code !! (offset + 3) with
  | Some b0, Some b1, Some b2, Some b3 =>
      bool_decide (b0 = xf3) && bool_decide (b1 = x0f) &&
      bool_decide (b2 = x1e) && (bool_decide (b3 = xfa) || bool_decide (b3 = xfb))
  | _, _, _, _ => false
  end.

Definition extractTargetAMD64 (inst : x86asm.Inst) (sourceAddr : Z)
    (cfType : CallSiteType) (baseConfidence : Confidence) : option CallSiteEdge.t :=
  match x86asm.arg 0 inst with
  | x86asm.ARel rel =>
      Some {| CallSiteEdge.SourceAddr := sourceAddr;
              CallSiteEdge.TargetAddr :=
                uint64 (uint64 (sourceAddr + Z.of_nat (x86asm.Len inst)) + uint64 rel);
              CallSiteEdge.Type_ := cfType;
              CallSiteEdge.AddressMode := AddressingModePCRelative;
              CallSiteEdge.Confidence := baseConfidence |}
  | x86asm.AMem m =>
      if bool_decide (x86asm.Base m = x86asm.RIP) && bool_decide (x86asm.Index m = x86asm.NoReg) then
        Some {| CallSiteEdge.SourceAddr := sourceAddr;
                CallSiteEdge.TargetAddr :=
                  uint64 (uint64 (sourceAddr + Z.of_nat (x86asm.Len inst)) + uint64 (x86asm.Disp m));
                CallSiteEdge.Type_ := cfType;
                CallSiteEdge.AddressMode := AddressingModePCRelative;
                CallSiteEdge.Confidence := ConfidenceMedium |}
      else if bool_decide (x86asm.Base m = x86asm.NoReg) && bool_decide (x86asm.Index m = x86asm.NoReg) then
        Some {| CallSiteEdge.SourceAddr := sourceAddr;
                CallSiteEdge.TargetAddr := uint64 (x86asm.Disp m);
                CallSiteEdge.Type_ := cfType;
                CallSiteEdge.AddressMode := AddressingModeAbsolute;
                CallSiteEdge.Confidence := baseConfidence |}
      else
        Some {| CallSiteEdge.SourceAddr := sourceAddr;
                CallSiteEdge.TargetAddr := 0;
                CallSiteEdge.Type_ := cfType;
                CallSiteEdge.AddressMode := AddressingModeRegisterIndirect;
                CallSiteEdge.Confidence := ConfidenceNone |}
  | x86asm.AReg _ =>
      Some {| CallSiteEdge.SourceAddr := sourceAddr;
              CallSiteEdge.TargetAddr := 0;
              CallSiteEdge.Type_ := cfType;
              CallSiteEdge.AddressMode := AddressingModeRegisterIndirect;
              CallSiteEdge.Confidence := ConfidenceNone |}
  | _ => None
  end.

Definition extractTargetARM64 (inst : arm64asm.Inst) (sourceAddr : Z)
    (cfType : CallSiteType) (confidence : Confidence) : option CallSiteEdge.t :=
  match arm64asm.arg 0 inst with
  | arm64asm.APCRel pcrel =>
      Some {| CallSiteEdge.SourceAddr := sourceAddr;
              CallSiteEdge.TargetAddr := uint64 (sourceAddr + uint64 pcrel);
              CallSiteEdge.Type_ := cfType;
              CallSiteEdge.AddressMode := AddressingModePCRelative;
              CallSiteEdge.Confidence := confidence |}
  | _ => None
  end.

(** [append(result, *edge)] when the extraction gave an edge. *)
Definition append_edge (result : list CallSiteEdge.t) (edge : option CallSiteEdge.t) :=
  match edge with
  | Some e => result ++ [e]
  | None => result
  end.

(** The confidence of an ARM64 [B]: low as soon as one operand is a
    condition. *)
Definition confidenceOfB (inst : arm64asm.Inst) : Confidence :=
  if existsb (fun a => match a with arm64asm.ACond _ => true | _ => false end)
       (arm64asm.Args inst)
  then ConfidenceLow else ConfidenceMedium.

Section Scanners.

(** [x86asm.Decode(src, 64)] and [arm64asm.Decode(src)]; [None] is a
    decode error. *)
Variable x86Decode : list byte -> option x86asm.Inst.
Variable arm64Decode : list byte -> option arm64asm.Inst.

(** The edges one decoded AMD64 instruction at [addr] contributes. *)
Definition edgeOfAMD64 (inst : x86asm.Inst) (addr : Z) : option CallSiteEdge.t :=
  match x86asm.Op inst with
  | x86asm.CALL => extractTargetAMD64 inst addr CallSiteCall ConfidenceHigh
  | x86asm.JMP => extractTargetAMD64 inst addr CallSiteJump ConfidenceMedium
  | _ => None
  end.

(** The loop of [detectCallSitesAMD64]: one iteration per unit of fuel. *)
Fixpoint detectCallSitesAMD64_loop (fuel : nat) (code : list byte) (offset : nat)
    (addr : Z) (result : list CallSiteEdge.t) : option (list CallSiteEdge.t) :=
  if bool_decide (offset < length code) then
    match fuel with
    | O => None
    | S fuel' =>
        if isENDBR code offset then
          detectCallSitesAMD64_loop fuel' code (offset + 4) (uint64 (addr + 4)) result
        else
          match x86Decode (drop offset code) with
          | None =>
              detectCallSitesAMD64_loop fuel' code (offset + 1) (uint64 (addr + 1)) result
          | Some inst =>
              detectCallSitesAMD64_loop fuel' code (offset + x86asm.Len inst)
                (uint64 (addr + Z.of_nat (x86asm.Len inst)))
                (append_edge result (edgeOfAMD64 inst addr))
          end
    end
  else Some result.

Definition detectCallSitesAMD64 (code : list byte) (baseAddr : Z) : res (list CallSiteEdge.t) :=
  of_loop (detectCallSitesAMD64_loop (S (length code)) code 0 baseAddr []).

(** The edge one decoded ARM64 instruction at [addr] contributes. *)
Definition edgeOfARM64 (inst : arm64asm.Inst) (addr : Z) : option CallSiteEdge.t :=
  match arm64asm.Op inst with
  | arm64asm.BL => extractTargetARM64 inst addr CallSiteCall ConfidenceHigh
  | arm64asm.B => extractTargetARM64 inst addr CallSiteJump (confidenceOfB inst)
  | _ => None
  end.

Definition insnLen : nat := 4.

(** The loop of [detectCallSitesARM64]: [offset] steps by four while a
    whole word is left. *)
Fixpoint detectCallSitesARM64_loop (fuel : nat) (code : list byte) (baseAddr : Z)
    (offset : nat) (result : list CallSiteEdge.t) : option (list CallSiteEdge.t) :=
  if bool_decide (offset + insnLen <= length code) then
    match fuel with
    | O => None
    | S fuel' =>
        match arm64Decode (take insnLen (drop offset code)) with
        | None => detectCallSitesARM64_loop fuel' code baseAddr (offset + insnLen) result
        | Some inst =>
            let addr := uint64 (baseAddr + Z.of_nat offset) in
            detectCallSitesARM64_loop fuel' code baseAddr (offset + insnLen)
              (append_edge result (edgeOfARM64 inst addr))
        end
    end
  else Some result.

Definition detectCallSitesARM64 (code : list byte) (baseAddr : Z) : res (list CallSiteEdge.t) :=
  of_loop (detectCallSitesARM64_loop (S (length code)) code baseAddr 0 []).

Definition DetectCallSites (code : list byte) (baseAddr : Z) (arch : Arch)
    : res (list CallSiteEdge.t) :=
  match arch with
  | ArchAMD64 => detectCallSitesAMD64 code baseAddr
  | ArchARM64 => detectCallSitesARM64 code baseAddr
  | ArchOther token => Err ("unsupported architecture: " +:+ token)
  end.

End Scanners.

(** ** ELF files (package debug/elf)

    What the front ends read of a parsed file: the machine of the header,
    and of each section its name, address, size and what [Data] returns,
    bytes and error.  [Data] can fail with [io.EOF], which the front ends
    let pass, or with another error. *)

Module elf.

Inductive Machine := EM_X86_64 | EM_AARCH64 | EM_Other (name : string).

Inductive DataError := NoError | EOF | ReadError (err : string).

Record Section := {
  Name : string;
  Addr : Z;
  Size : Z;
  Data : list byte;
  DataErr : DataError;
}.

Record File := { Machine_ : Machine; Sections : list Section }.

(** [f.Section(name)]: the first section of that name, or nil. *)
Definition Section_ (f : File) (name : string) : option Section :=
  List.find (fun s => bool_decide (Name s = name)) (Sections f).

(** The result of [elf.NewFile]. *)
Inductive Opened := Parsed (f : File) | Malformed (err : string).

End elf.

(** ** What [fmt.Sprintf] prints for an immediate

    The record text of the sub-rsp pattern is
    [fmt.Sprintf("sub rsp, 0x%x", imm)] with [imm] an [x86asm.Imm].  That
    type has a [String] method, and [fmt] applies the verb [%x] of an
    operand with such a method to the text the method returns: it prints
    the bytes of that text in hexadecimal, two lower-case digits each.
    [Imm.String] is [fmt.Sprintf("%#x", int64(i))], the text [HexString.of_Z]
    gives.  So immediate 0x20 is printed [30783230], the bytes of the
    text [0x20]. *)

(** One hexadecimal digit, [0] to [9] then [a] to [f], as a character. *)
Definition hexDigit (n : N) : Ascii.ascii :=
  Ascii.ascii_of_N (if (n <? 10)%N then 48 + n else 87 + n)%N.

(** The verb [%x] on a string. *)
Fixpoint hexOfString (s : string) : string :=
  match s with
  | EmptyString => EmptyString
  | String c s' =>
      String (hexDigit (Ascii.N_of_ascii c / 16))
        (String (hexDigit (Ascii.N_of_ascii c mod 16)) (hexOfString s'))
  end.

(** [x86asm.Imm.String]. *)
Definition Imm_String (i : Z) : string := HexString.of_Z i.

(** ** Prologue detection on AMD64 (package prologo, detector.go) *)

Module prologo.
Section Detector.

Variable x86Decode : list byte -> option x86asm.Inst.

(** [prevInsn == nil || prevInsn.Op == x86asm.RET] *)
Definition atBoundary (prevInsn : option x86asm.Inst) : bool :=
  match prevInsn with
  | None => true
  | Some p => bool_decide (x86asm.Op p = x86asm.RET)
  end.

(** Pattern 1: push rbp; mov rbp, rsp.  The record sits at the address
    of the push. *)
Definition classic (prevInsn : option x86asm.Inst) (inst : x86asm.Inst) (addr : Z)
    : list Prologue.t :=
  match prevInsn with
  | Some p =>
      if bool_decide (x86asm.Op p = x86asm.PUSH) &&
         bool_decide (x86asm.arg 0 p = x86asm.AReg x86asm.RBP) &&
         bool_decide (x86asm.Op inst = x86asm.MOV) &&
         bool_decide (x86asm.arg 0 inst = x86asm.AReg x86asm.RBP) &&
         bool_decide (x86asm.arg 1 inst = x86asm.AReg x86asm.RSP)
      then [ {| Prologue.Address := uint64 (addr - Z.of_nat (x86asm.Len p));
                Prologue.Type_ := PrologueClassic;
                Prologue.Instructions := "push rbp; mov rbp, rsp" |} ]
      else []
  | None => []
  end.

(** Pattern 2: sub rsp, imm with a positive immediate.  The text is what
    [fmt.Sprintf("sub rsp, 0x%x", imm)] returns: [%x] of the text of the
    immediate, not of its value. *)
Definition noFramePointer (prevInsn : option x86asm.Inst) (inst : x86asm.Inst) (addr : Z)
    : list Prologue.t :=
  if bool_decide (x86asm.Op inst = x86asm.SUB) &&
     bool_decide (x86asm.arg 0 inst = x86asm.AReg x86asm.RSP)
  then
    match x86asm.arg 1 inst with
    | x86asm.AImm imm =>
        if bool_decide (0 < imm)%Z && atBoundary prevInsn
        then [ {| Prologue.Address := addr;
                  Prologue.Type_ := PrologueNoFramePointer;
                  Prologue.Instructions :=
                    "sub rsp, 0x" +:+ hexOfString (Imm_String imm) |} ]
        else []
    | _ => []
    end
  else [].

(** Pattern 3: push rbp as first instruction. *)
Definition pushOnly (prevInsn : option x86asm.Inst) (inst : x86asm.Inst) (addr : Z)
    : list Prologue.t :=
  if bool_decide (x86asm.Op inst = x86asm.PUSH) &&
     bool_decide (x86asm.arg 0 inst = x86asm.AReg x86asm.RBP) &&
     atBoundary prevInsn
  then [ {| Prologue.Address := addr;
            Prologue.Type_ := ProloguePushOnly;
            Prologue.Instructions := "push rbp" |} ]
  else [].

(** Pattern 4: lea rsp, [rsp-imm]. *)
Definition leaBased (prevInsn : option x86asm.Inst) (inst : x86asm.Inst) (addr : Z)
    : list Prologue.t :=
  if bool_decide (x86asm.Op inst = x86asm.LEA) &&
     bool_decide (x86asm.arg 0 inst = x86asm.AReg x86asm.RSP) &&
     atBoundary prevInsn
  then [ {| Prologue.Address := addr;
            Prologue.Type_ := PrologueLEABased;
            Prologue.Instructions := "lea rsp, [rsp-offset]" |} ]
  else [].

(** The records one loop iteration appends, in the order of the four
    tests. *)
Definition matchPatterns (prevInsn : option x86asm.Inst) (inst : x86asm.Inst) (addr : Z)
    : list Prologue.t :=
  classic prevInsn inst addr ++ noFramePointer prevInsn inst addr ++
  pushOnly prevInsn inst addr ++ leaBased prevInsn inst addr.

Fixpoint DetectPrologues_loop (fuel : nat) (code : list byte) (offset : nat) (addr : Z)
    (prevInsn : option x86asm.Inst) (result : list Prologue.t) : option (list Prologue.t) :=
  if bool_decide (offset < length code) then
    match fuel with
    | O => None
    | S fuel' =>
        match x86Decode (drop offset code) with
        | None =>
            DetectPrologues_loop fuel' code (offset + 1) (uint64 (addr + 1)) None result
        | Some inst =>
            DetectPrologues_loop fuel' code (offset + x86asm.Len inst)
              (uint64 (addr + Z.of_nat (x86asm.Len inst))) (Some inst)
              (result ++ matchPatterns prevInsn inst addr)
        end
    end
  else Some result.

Definition DetectPrologues (code : list byte) (baseAddr : Z) : res (list Prologue.t) :=
  of_loop (DetectPrologues_loop (S (length code)) code 0 baseAddr None []).

End Detector.

Section FromELF.

Variable x86Decode : list byte -> option x86asm.Inst.

(** [elf.NewFile] on the reader handed to the front end. *)
Variable Reader : Type.
Variable NewFile : Reader -> elf.Opened.

(** The header's machine is not looked at: the bytes of [.text] go to the
    AMD64 scan whatever the file was built for. *)
Definition DetectProloguesFromELF (r : Reader) : res (list Prologue.t) :=
  match NewFile r with
  | elf.Malformed err => Err ("failed to parse ELF file: " +:+ err)
  | elf.Parsed f =>
      match elf.Section_ f ".text" with
      | None => Err "no .text section found"
      | Some textSec =>
          match elf.DataErr textSec with
          | elf.ReadError err => Err ("failed to read .text section: " +:+ err)
          | _ => DetectPrologues x86Decode (elf.Data textSec) (elf.Addr textSec)
          end
      end
  end.

End FromELF.
End prologo.

(** ** The architecture-aware prologue entry point

    [DetectFunctions] calls [DetectPrologues(code, baseAddr, arch)], which
    is not among the sources; only the AMD64 scanner above is. *)

Module SpecModel.
Section Detector.

Variable x86Decode : list byte -> option x86asm.Inst.
Variable arm64Decode : list byte -> option arm64asm.Inst.

(** Modelled from the spec: the boundary predicate of section 4.B,
    [prev is None or prev.op = RET], for the missing ARM64 scanner. *)
Definition atBoundary (prev : option arm64asm.Inst) : bool :=
  match prev with
  | None => true
  | Some p => bool_decide (arm64asm.Op p = arm64asm.RET)
  end.

(** Modelled from the spec: the first instruction of the StpFramePair and
    StpOnly patterns (section 4.B), [STP X29, X30, [SP, #-16]!]. *)
Definition isSTPPair (inst : arm64asm.Inst) : bool :=
  bool_decide (arm64asm.Op inst = arm64asm.STP) &&
  bool_decide (arm64asm.arg 0 inst = arm64asm.AReg (arm64asm.X 29)) &&
  bool_decide (arm64asm.arg 1 inst = arm64asm.AReg (arm64asm.X 30)) &&
  bool_decide (arm64asm.arg 2 inst = arm64asm.AMemPre arm64asm.SP (-16)).

(** Modelled from the spec: the second instruction of the StpFramePair
    pattern (section 4.B), [MOV X29, SP]. *)
Definition isMovFP (inst : arm64asm.Inst) : bool :=
  bool_decide (arm64asm.Op inst = arm64asm.MOV) &&
  bool_decide (arm64asm.arg 0 inst = arm64asm.AReg (arm64asm.X 29)) &&
  bool_decide (arm64asm.arg 1 inst = arm64asm.AReg arm64asm.SP).

(** Modelled from the spec: the SubSp pattern (section 4.B),
    [SUB SP, SP, #imm] with a positive immediate. *)
Definition isSubSP (inst : arm64asm.Inst) : bool :=
  bool_decide (arm64asm.Op inst = arm64asm.SUB) &&
  bool_decide (arm64asm.arg 0 inst = arm64asm.AReg arm64asm.SP) &&
  bool_decide (arm64asm.arg 1 inst = arm64asm.AReg arm64asm.SP) &&
  match arm64asm.arg 2 inst with
  | arm64asm.AImm imm => bool_decide (0 < imm)%Z
  | _ => false
  end.

(** Modelled from the spec: the instruction in the next four-byte slot,
    when there is one, which the StpFramePair pattern of section 4.B looks
    at. *)
Definition nextSlot (code : list byte) (offset : nat) : option arm64asm.Inst :=
  if bool_decide (offset + 8 <= length code)
  then arm64Decode (take 4 (drop (offset + 4) code))
  else None.

(** Modelled from the spec: the records one ARM64 instruction gives under
    the three patterns of section 4.B, for the missing ARM64 scanner. *)
Definition matchPatterns (code : list byte) (offset : nat) (prev : option arm64asm.Inst)
    (inst : arm64asm.Inst) (addr : Z) : list Prologue.t :=
  (if isSTPPair inst then
     match nextSlot code offset with
     | Some next =>
         if isMovFP next
         then [ {| Prologue.Address := addr;
                   Prologue.Type_ := PrologueSTPFramePair;
                   Prologue.Instructions := "stp x29, x30, [sp, #-16]!; mov x29, sp" |} ]
         else [ {| Prologue.Address := addr;
                   Prologue.Type_ := PrologueSTPOnly;
                   Prologue.Instructions := "stp x29, x30, [sp, #-16]!" |} ]
     | None =>
         [ {| Prologue.Address := addr;
              Prologue.Type_ := PrologueSTPOnly;
              Prologue.Instructions := "stp x29, x30, [sp, #-16]!" |} ]
     end
   else []) ++
  (if isSubSP inst && atBoundary prev
   then [ {| Prologue.Address := addr;
             Prologue.Type_ := PrologueSubSP;
             Prologue.Instructions := "sub sp, sp, #imm" |} ]
   else []).

(** Modelled from the spec: the ARM64 prologue scanner is not among the
    sources.  Sections 4.A and 4.B: a linear walk in four-byte units that
    stops as soon as fewer than four bytes remain, skips a unit on a
    decode failure, keeps a one-instruction window [prev] (cleared on a
    failure, as in the AMD64 scanner) and tests the three ARM64 patterns.
    The specification does not fix the record texts. *)
Fixpoint detectProloguesARM64_loop (fuel : nat) (code : list byte) (baseAddr : Z)
    (offset : nat) (prev : option arm64asm.Inst) (result : list Prologue.t)
    : option (list Prologue.t) :=
  if bool_decide (offset + 4 <= length code) then
    match fuel with
    | O => None
    | S fuel' =>
        match arm64Decode (take 4 (drop offset code)) with
        | None => detectProloguesARM64_loop fuel' code baseAddr (offset + 4) None result
        | Some inst =>
            let addr := uint64 (baseAddr + Z.of_nat offset) in
            detectProloguesARM64_loop fuel' code baseAddr (offset + 4) (Some inst)
              (result ++ matchPatterns code offset prev inst addr)
        end
    end
  else Some result.

(** Modelled from the spec: the ARM64 prologue entry point, missing from
    the sources; it runs the scan above from offset zero. *)
Definition detectProloguesARM64 (code : list byte) (baseAddr : Z) : res (list Prologue.t) :=
  of_loop (detectProloguesARM64_loop (S (length code)) code baseAddr 0 None []).

(** Modelled from the spec: the dispatcher [DetectPrologues(code,
    baseAddr, arch)] is missing from the sources.  Section 3: the
    architecture tag is the closed set AMD64, ARM64 and any other value
    is a hard error at the public boundary; the AMD64 case is the scanner
    of detector.go. *)
Definition DetectPrologues (code : list byte) (baseAddr : Z) (arch : Arch)
    : res (list Prologue.t) :=
  match arch with
  | ArchAMD64 => prologo.DetectPrologues x86Decode code baseAddr
  | ArchARM64 => detectProloguesARM64 code baseAddr
  | ArchOther token => Err ("unsupported architecture: " +:+ token)
  end.

End Detector.
End SpecModel.

(** ** Fusion: [DetectFunctions] *)

(** The candidate a prologue record inserts (or replaces). *)
Definition candidateOfPrologue (p : Prologue.t) : FunctionCandidate.t :=
  {| FunctionCandidate.Address := Prologue.Address p;
     FunctionCandidate.DetectionType := DetectionPrologueOnly;
     FunctionCandidate.PrologueType := Some (Prologue.Type_ p);
     FunctionCandidate.CalledFrom := [];
     FunctionCandidate.JumpedFrom := [];
     FunctionCandidate.Confidence := ConfidenceMedium |}.

(** The update of an entry already in the map, through its pointer. *)
Definition upgradeCandidate (candidate : FunctionCandidate.t) (edge : CallSiteEdge.t)
    : FunctionCandidate.t :=
  {| FunctionCandidate.Address := FunctionCandidate.Address candidate;
     FunctionCandidate.DetectionType := DetectionBoth;
     FunctionCandidate.PrologueType := FunctionCandidate.PrologueType candidate;
     FunctionCandidate.CalledFrom :=
       if bool_decide (CallSiteEdge.Type_ edge = CallSiteCall)
       then FunctionCandidate.CalledFrom candidate ++ [CallSiteEdge.SourceAddr edge]
       else FunctionCandidate.CalledFrom candidate;
     FunctionCandidate.JumpedFrom :=
       if bool_decide (CallSiteEdge.Type_ edge = CallSiteCall)
       then FunctionCandidate.JumpedFrom candidate
       else FunctionCandidate.JumpedFrom candidate ++ [CallSiteEdge.SourceAddr edge];
     FunctionCandidate.Confidence := ConfidenceHigh |}.

(** The entry created for a target no entry exists for. *)
Definition candidateOfEdge (edge : CallSiteEdge.t) : FunctionCandidate.t :=
  {| FunctionCandidate.Address := CallSiteEdge.TargetAddr edge;
     FunctionCandidate.DetectionType :=
       if bool_decide (CallSiteEdge.Type_ edge = CallSiteJump)
       then DetectionJumpTarget else DetectionCallTarget;
     FunctionCandidate.PrologueType := None;
     FunctionCandidate.CalledFrom :=
       if bool_decide (CallSiteEdge.Type_ edge = CallSiteCall)
       then [CallSiteEdge.SourceAddr edge] else [];
     FunctionCandidate.JumpedFrom :=
       if bool_decide (CallSiteEdge.Type_ edge = CallSiteCall)
       then [] else [CallSiteEdge.SourceAddr edge];
     FunctionCandidate.Confidence := ConfidenceMedium |}.

(** The filter at the head of the edge loop. *)
Definition contributes (edge : CallSiteEdge.t) : bool :=
  negb (bool_decide (CallSiteEdge.Confidence edge ≠ ConfidenceHigh) &&
        bool_decide (CallSiteEdge.Confidence edge ≠ ConfidenceMedium)).

Definition addPrologue (candidates : gmap Z FunctionCandidate.t) (p : Prologue.t)
    : gmap Z FunctionCandidate.t :=
  <[Prologue.Address p := candidateOfPrologue p]> candidates.

Definition addEdge (candidates : gmap Z FunctionCandidate.t) (edge : CallSiteEdge.t)
    : gmap Z FunctionCandidate.t :=
  if contributes edge then
    match candidates !! CallSiteEdge.TargetAddr edge with
    | Some candidate =>
        <[CallSiteEdge.TargetAddr edge := upgradeCandidate candidate edge]> candidates
    | None =>
        <[CallSiteEdge.TargetAddr edge := candidateOfEdge edge]> candidates
    end
  else candidates.

(** The map after the two loops. *)
Definition fuse (prologues : list Prologue.t) (edges : list CallSiteEdge.t)
    : gmap Z FunctionCandidate.t :=
  foldl addEdge (foldl addPrologue ∅ prologues) edges.

Definition addressLe (a b : FunctionCandidate.t) : Prop :=
  (FunctionCandidate.Address a <= FunctionCandidate.Address b)%Z.

#[global] Instance addressLe_dec a b : Decision (addressLe a b).
Proof. unfold addressLe. apply _. Defined.

(** The map turned into a slice and sorted by address.  Go walks the map
    in no fixed order; the sort settles the order because the addresses
    of distinct entries differ. *)
Definition sortedCandidates (candidates : gmap Z FunctionCandidate.t)
    : list FunctionCandidate.t :=
  merge_sort addressLe (map_to_list candidates).*2.

Section Fusion.

Variable x86Decode : list byte -> option x86asm.Inst.
Variable arm64Decode : list byte -> option arm64asm.Inst.

(** The prologue entry point [DetectFunctions] calls. *)
Variable DetectPrologues : list byte -> Z -> Arch -> res (list Prologue.t).

Definition DetectFunctions (code : list byte) (baseAddr : Z) (arch : Arch)
    : res (list FunctionCandidate.t) :=
  match DetectPrologues code baseAddr arch with
  | Err e => Err ("failed to detect prologues: " +:+ e)
  | Diverges => Diverges
  | Ok prologues =>
      match DetectCallSites x86Decode arm64Decode code baseAddr arch with
      | Err e => Err ("failed to detect call sites: " +:+ e)
      | Diverges => Diverges
      | Ok edges => Ok (sortedCandidates (fuse prologues edges))
      end
  end.

End Fusion.

(** [DetectFunctions] over the prologue entry point of [SpecModel]. *)
Definition DetectFunctionsFull (x86Decode : list byte -> option x86asm.Inst)
    (arm64Decode : list byte -> option arm64asm.Inst)
    (code : list byte) (baseAddr : Z) (arch : Arch) : res (list FunctionCandidate.t) :=
  DetectFunctions x86Decode arm64Decode
    (SpecModel.DetectPrologues x86Decode arm64Decode) code baseAddr arch.

(** ** The ELF front ends of the call-site and function detectors *)

(** The test of the filtering loop of [DetectCallSitesFromELF]: a resolved
    target inside [textStart, textEnd), the end computed in 64 bits. *)
Definition inText (textSec : elf.Section) (edge : CallSiteEdge.t) : Prop :=
  CallSiteEdge.Confidence edge <> ConfidenceNone /\
  (elf.Addr textSec <= CallSiteEdge.TargetAddr edge)%Z /\
  (CallSiteEdge.TargetAddr edge < uint64 (elf.Addr textSec + elf.Size textSec))%Z.

#[global] Instance inText_dec textSec edge : Decision (inText textSec edge).
Proof. unfold inText. apply _. Defined.

Section FromELF.

Variable x86Decode : list byte -> option x86asm.Inst.
Variable arm64Decode : list byte -> option arm64asm.Inst.
Variable DetectPrologues : list byte -> Z -> Arch -> res (list Prologue.t).

Variable Reader : Type.
Variable NewFile : Reader -> elf.Opened.

Definition DetectCallSitesFromELF (r : Reader) : res (list CallSiteEdge.t) :=
  match NewFile r with
  | elf.Malformed err => Err ("failed to parse ELF file: " +:+ err)
  | elf.Parsed f =>
      match elf.Section_ f ".text" with
      | None => Err "no .text section found"
      | Some textSec =>
          match elf.DataErr textSec with
          | elf.ReadError err => Err ("failed to read .text section: " +:+ err)
          | _ =>
              let code := elf.Data textSec in
              let scanned :=
                match elf.Machine_ f with
                | elf.EM_X86_64 => detectCallSitesAMD64 x86Decode code (elf.Addr textSec)
                | elf.EM_AARCH64 => detectCallSitesARM64 arm64Decode code (elf.Addr textSec)
                | elf.EM_Other name => Err ("unsupported ELF machine: " +:+ name)
                end in
              match scanned with
              | Err e => Err e
              | Diverges => Diverges
              | Ok edges => Ok (filter (inText textSec) edges)
              end
          end
      end
  end.

Definition DetectFunctionsFromELF (r : Reader) : res (list FunctionCandidate.t) :=
  match NewFile r with
  | elf.Malformed err => Err ("failed to parse ELF file: " +:+ err)
  | elf.Parsed f =>
      match elf.Section_ f ".text" with
      | None => Err "no .text section found"
      | Some textSec =>
          match elf.DataErr textSec with
          | elf.ReadError err => Err ("failed to read .text section: " +:+ err)
          | _ =>
              let code := elf.Data textSec in
              match elf.Machine_ f with
              | elf.EM_X86_64 =>
                  DetectFunctions x86Decode arm64Decode DetectPrologues
                    code (elf.Addr textSec) ArchAMD64
              | elf.EM_AARCH64 =>
                  DetectFunctions x86Decode arm64Decode DetectPrologues
                    code (elf.Addr textSec) ArchARM64
              | elf.EM_Other name => Err ("unsupported ELF machine: " +:+ name)
              end
          end
      end
  end.

End FromELF.

(** ** Two decoder fragments

    The AMD64 encodings the tests of the repository spell out, decoded the
    way their comments document, and the ARM64 words of the tests (BL, B,
    B.cond, RET, NOP, the three prologue instructions) together with BLR
    and BR.  They serve to run the scanners on concrete byte strings;
    every general theorem below holds for any decoder.

    Two things the Go decoder does are kept: it sign-extends the
    displacement of a relative branch ([Rel]) but stores the 32-bit
    displacement of a memory operand without sign extension ([Mem.Disp] of
    [ff 15 fa ff ff ff] is 0xfffffffa); and a prefix byte followed by bytes
    it cannot read is returned as a one-byte instruction without opcode,
    which is what it makes of the first byte of a landing pad
    ([f3 0f 1e fa]), whose last byte alone reads as [cli].  Opcode
    leftover 0 is the missing opcode, leftover 1 is [cli]. *)

Definition byteZ (b : byte) : Z := Z.of_N (Byte.to_N b).

(** A little-endian unsigned value. *)
Fixpoint leZ (bs : list byte) : Z :=
  match bs with
  | [] => 0
  | b :: bs' => (byteZ b + 256 * leZ bs')%Z
  end.

(** Two's complement reading of a [bits]-wide value. *)
Definition signed (bits : Z) (v : Z) : Z :=
  if bool_decide (v < 2 ^ (bits - 1))%Z then v else (v - 2 ^ bits)%Z.

Definition x86Inst (op : x86asm.Opcode) (args : list x86asm.Arg) (len : nat) : x86asm.Inst :=
  {| x86asm.Op := op; x86asm.Args := args; x86asm.Len := len |}.

Definition memRIP (disp : Z) : x86asm.Mem :=
  {| x86asm.Segment := x86asm.NoReg; x86asm.Base := x86asm.RIP; x86asm.Scale := 0;
     x86asm.Index := x86asm.NoReg; x86asm.Disp := disp |}.

Definition memBase (r : x86asm.Reg) (disp : Z) : x86asm.Mem :=
  {| x86asm.Segment := x86asm.NoReg; x86asm.Base := r; x86asm.Scale := 0;
     x86asm.Index := x86asm.NoReg; x86asm.Disp := disp |}.

Definition x86Fragment (src : list byte) : option x86asm.Inst :=
  match map byteZ src with
  | 0xE8 :: _ :: _ :: _ :: _ :: _ =>
      Some (x86Inst x86asm.CALL [x86asm.ARel (signed 32 (leZ (take 4 (drop 1 src))))] 5)
  | 0xE9 :: _ :: _ :: _ :: _ :: _ =>
      Some (x86Inst x86asm.JMP [x86asm.ARel (signed 32 (leZ (take 4 (drop 1 src))))] 5)
  | 0xEB :: _ :: _ =>
      Some (x86Inst x86asm.JMP [x86asm.ARel (signed 8 (leZ (take 1 (drop 1 src))))] 2)
  | 0xFF :: 0xD0 :: _ => Some (x86Inst x86asm.CALL [x86asm.AReg x86asm.RAX] 2)
  | 0xFF :: 0xE0 :: _ => Some (x86Inst x86asm.JMP [x86asm.AReg x86asm.RAX] 2)
  | 0xFF :: 0x15 :: _ :: _ :: _ :: _ :: _ =>
      Some (x86Inst x86asm.CALL [x86asm.AMem (memRIP (leZ (take 4 (drop 2 src))))] 6)
  | 0xFF :: 0x53 :: _ :: _ =>
      Some (x86Inst x86asm.CALL
              [x86asm.AMem (memBase x86asm.RBX (signed 8 (leZ (take 1 (drop 2 src)))))] 3)
  | 0x55 :: _ => Some (x86Inst x86asm.PUSH [x86asm.AReg x86asm.RBP] 1)
  | 0x53 :: _ => Some (x86Inst x86asm.PUSH [x86asm.AReg x86asm.RBX] 1)
  | 0x48 :: 0x89 :: 0xE5 :: _ =>
      Some (x86Inst x86asm.MOV [x86asm.AReg x86asm.RBP; x86asm.AReg x86asm.RSP] 3)
  | 0x48 :: 0x83 :: 0xEC :: _ :: _ =>
      Some (x86Inst x86asm.SUB
              [x86asm.AReg x86asm.RSP; x86asm.AImm (signed 8 (leZ (take 1 (drop 3 src))))] 4)
  | 0xC3 :: _ => Some (x86Inst x86asm.RET [] 1)
  | 0x90 :: _ => Some (x86Inst x86asm.NOP [] 1)
  | 0xF3 :: 0x0F :: 0x1E :: _ => Some (x86Inst (x86asm.OtherOp 0) [] 1)
  | 0xFA :: _ => Some (x86Inst (x86asm.OtherOp 1) [] 1)
  | _ => None
  end%Z.

Definition arm64Inst (op : arm64asm.Opcode) (args : list arm64asm.Arg) : arm64asm.Inst :=
  {| arm64asm.Op := op; arm64asm.Args := args |}.

Definition arm64Fragment (src : list byte) : option arm64asm.Inst :=
  if bool_decide (length src = 4) then
    let w := leZ src in
    if bool_decide (Z.land w 0xFC000000 = 0x94000000)%Z then
      Some (arm64Inst arm64asm.BL [arm64asm.APCRel (4 * signed 26 (Z.land w 0x3FFFFFF))])
    else if bool_decide (Z.land w 0xFC000000 = 0x14000000)%Z then
      Some (arm64Inst arm64asm.B [arm64asm.APCRel (4 * signed 26 (Z.land w 0x3FFFFFF))])
    else if bool_decide (Z.land w 0xFF000010 = 0x54000000)%Z then
      Some (arm64Inst arm64asm.B
              [arm64asm.ACond (Z.to_N (Z.land w 0xF));
               arm64asm.APCRel (4 * signed 19 (Z.land (Z.shiftr w 5) 0x7FFFF))])
    else if bool_decide (Z.land w 0xFFFFFC1F = 0xD63F0000)%Z then
      Some (arm64Inst arm64asm.BLR
              [arm64asm.AReg (arm64asm.X (Z.to_nat (Z.land (Z.shiftr w 5) 31)))])
    else if bool_decide (Z.land w 0xFFFFFC1F = 0xD61F0000)%Z then
      Some (arm64Inst arm64asm.BR
              [arm64asm.AReg (arm64asm.X (Z.to_nat (Z.land (Z.shiftr w 5) 31)))])
    else if bool_decide (w = 0xD65F03C0)%Z then
      Some (arm64Inst arm64asm.RET [arm64asm.AReg (arm64asm.X 30)])
    else if bool_decide (w = 0xD503201F)%Z then
      Some (arm64Inst arm64asm.NOP [])
    else if bool_decide (w = 0xA9BF7BFD)%Z then
      Some (arm64Inst arm64asm.STP
              [arm64asm.AReg (arm64asm.X 29); arm64asm.AReg (arm64asm.X 30);
               arm64asm.AMemPre arm64asm.SP (-16)])
    else if bool_decide (w = 0x910003FD)%Z then
      Some (arm64Inst arm64asm.MOV [arm64asm.AReg (arm64asm.X 29); arm64asm.AReg arm64asm.SP])
    else if bool_decide (w = 0xD10083FF)%Z then
      Some (arm64Inst arm64asm.SUB
              [arm64asm.AReg arm64asm.SP; arm64asm.AReg arm64asm.SP; arm64asm.AImm 32])
    else None
  else None.

(** [arm64Insn] of the tests: a word as four little-endian bytes. *)
Definition byteOfZ (z : Z) : byte :=
  default x00 (Byte.of_N (Z.to_N (z mod 256))).

Definition arm64Insn (w : Z) : list byte :=
  [byteOfZ w; byteOfZ (Z.shiftr w 8); byteOfZ (Z.shiftr w 16); byteOfZ (Z.shiftr w 24)].


(** ** The scans, position by position *)

Section ScanPositions.

Variable x86Decode : list byte -> option x86asm.Inst.
Variable code : list byte.

(** Where the iteration entered at [offset] leaves the cursor. *)
Definition advanceAMD64 (offset : nat) : nat :=
  if isENDBR code offset then offset + 4
  else match x86Decode (drop offset code) with
       | None => offset + 1
       | Some inst => offset + x86asm.Len inst
       end.

(** The edge the iteration entered at [offset], address [addr], emits. *)
Definition emitAMD64 (offset : nat) (addr : Z) : option CallSiteEdge.t :=
  if isENDBR code offset then None
  else match x86Decode (drop offset code) with
       | None => None
       | Some inst => edgeOfAMD64 inst addr
       end.

(** The offsets the scan stops at: instruction boundaries of the linear
    walk from offset zero. *)
Inductive visitedAMD64 : nat -> Prop :=
| visitedAMD64_start : visitedAMD64 0
| visitedAMD64_next offset :
    visitedAMD64 offset -> offset < length code ->
    visitedAMD64 (advanceAMD64 offset).

(** The same for the prologue scan of detector.go, which also carries the
    one-instruction window: where the cursor goes, and what is appended. *)
Definition advancePrologues (offset : nat) : nat :=
  match x86Decode (drop offset code) with
  | None => offset + 1
  | Some inst => offset + x86asm.Len inst
  end.

Definition emitPrologues (offset : nat) (prevInsn : option x86asm.Inst) (addr : Z)
    : list Prologue.t :=
  match x86Decode (drop offset code) with
  | None => []
  | Some inst => prologo.matchPatterns prevInsn inst addr
  end.

(** The offsets the prologue scan stops at, each with the window it holds
    there: the instruction decoded just before, or nothing after a decode
    failure and at the start. *)
Inductive visitedPrologues : nat -> option x86asm.Inst -> Prop :=
| visitedPrologues_start : visitedPrologues 0 None
| visitedPrologues_next offset prevInsn :
    visitedPrologues offset prevInsn -> offset < length code ->
    visitedPrologues (advancePrologues offset) (x86Decode (drop offset code)).

End ScanPositions.

(** ** Predicates the statements use *)

(** Every entry of the map sits under its own address. *)
Definition keyed (candidates : gmap Z FunctionCandidate.t) : Prop :=
  forall k c, candidates !! k = Some c -> FunctionCandidate.Address c = k.

Definition addressLt (a b : FunctionCandidate.t) : Prop :=
  (FunctionCandidate.Address a < FunctionCandidate.Address b)%Z.

(** The two documented forms of a PC-relative AMD64 target: next
    instruction plus the sign-extended immediate displacement, or next
    instruction plus the displacement of a RIP-based memory operand. *)
Definition pcRelativeFormAMD64 (inst : x86asm.Inst) (e : CallSiteEdge.t) : Prop :=
  (exists rel,
      x86asm.arg 0 inst = x86asm.ARel rel /\
      CallSiteEdge.TargetAddr e =
        uint64 (CallSiteEdge.SourceAddr e + Z.of_nat (x86asm.Len inst) + rel)) \/
  (exists m,
      x86asm.arg 0 inst = x86asm.AMem m /\
      x86asm.Base m = x86asm.RIP /\ x86asm.Index m = x86asm.NoReg /\
      CallSiteEdge.TargetAddr e =
        uint64 (CallSiteEdge.SourceAddr e + Z.of_nat (x86asm.Len inst) + x86asm.Disp m)).

(** The ARM64 form: the instruction address plus the sign-extended byte
    offset. *)
Definition pcRelativeFormARM64 (inst : arm64asm.Inst) (e : CallSiteEdge.t) : Prop :=
  exists pcrel,
    arm64asm.arg 0 inst = arm64asm.APCRel pcrel /\
    CallSiteEdge.TargetAddr e = uint64 (CallSiteEdge.SourceAddr e + pcrel).

(** An edge of the AMD64 scan comes from one iteration: a visited offset
    that is no landing pad and decodes to a CALL or JMP. *)
Definition originAMD64 (x86Decode : list byte -> option x86asm.Inst) (code : list byte)
    (baseAddr : Z) (e : CallSiteEdge.t) : Prop :=
  exists offset inst,
    visitedAMD64 x86Decode code offset /\ offset < length code /\
    isENDBR code offset = false /\
    x86Decode (drop offset code) = Some inst /\
    edgeOfAMD64 inst (uint64 (baseAddr + Z.of_nat offset)) = Some e.

Definition originARM64 (arm64Decode : list byte -> option arm64asm.Inst) (code : list byte)
    (baseAddr : Z) (e : CallSiteEdge.t) : Prop :=
  exists offset inst,
    offset + 4 <= length code /\
    arm64Decode (take 4 (drop offset code)) = Some inst /\
    edgeOfARM64 inst (uint64 (baseAddr + Z.of_nat offset)) = Some e.

(** The address lies in the scanned buffer. *)
Definition inBuffer (code : list byte) (baseAddr : Z) (address : Z) : Prop :=
  (baseAddr <= address < baseAddr + Z.of_nat (length code))%Z.

(** The call returned (a list or an error). *)
Definition returns {A} (r : res A) : Prop := r <> Diverges.

(** ** Sample inputs, from the tests of the repository *)

Definition ENDBR64 : list byte := [xf3; x0f; x1e; xfa].
Definition ENDBR32 : list byte := [xf3; x0f; x1e; xfb].

(** [call $+0x10] at the start of a five-byte buffer. *)
Definition callRel32 : list byte := [xe8; x0b; x00; x00; x00].

(** [call +0x17] *)
Definition callRel32_17 : list byte := [xe8; x17; x00; x00; x00].

(** [call [rip+0x1234]] *)
Definition callRIP : list byte := [xff; x15; x34; x12; x00; x00].

(** [call rax] *)
Definition callRAX : list byte := [xff; xd0].

(** Two calls to offset ten, where a lone [ret] sits. *)
Definition twoCallsOneTarget : list byte :=
  [xe8; x05; x00; x00; x00; xe8; x00; x00; x00; x00; xc3].

(** The edges the sample inputs give. *)
Definition callRel32Edge : CallSiteEdge.t :=
  {| CallSiteEdge.SourceAddr := 0;
     CallSiteEdge.TargetAddr := 16;
     CallSiteEdge.Type_ := CallSiteCall;
     CallSiteEdge.AddressMode := AddressingModePCRelative;
     CallSiteEdge.Confidence := ConfidenceHigh |}.

Definition callRIPEdge : CallSiteEdge.t :=
  {| CallSiteEdge.SourceAddr := 4096;
     CallSiteEdge.TargetAddr := 8762;
     CallSiteEdge.Type_ := CallSiteCall;
     CallSiteEdge.AddressMode := AddressingModePCRelative;
     CallSiteEdge.Confidence := ConfidenceMedium |}.

Definition endbrCallEdge : CallSiteEdge.t :=
  {| CallSiteEdge.SourceAddr := 4;
     CallSiteEdge.TargetAddr := 32;
     CallSiteEdge.Type_ := CallSiteCall;
     CallSiteEdge.AddressMode := AddressingModePCRelative;
     CallSiteEdge.Confidence := ConfidenceHigh |}.

(** [bl +0x1000] at 0x1000, as in the ARM64 test. *)
Definition blForward : list byte := arm64Insn 0x94000400.

Definition blForwardEdge : CallSiteEdge.t :=
  {| CallSiteEdge.SourceAddr := 4096;
     CallSiteEdge.TargetAddr := 8192;
     CallSiteEdge.Type_ := CallSiteCall;
     CallSiteEdge.AddressMode := AddressingModePCRelative;
     CallSiteEdge.Confidence := ConfidenceHigh |}.

(** The records the prologue scan gives after a decode failure. *)
Definition noFramePointerAt (address imm : Z) : Prologue.t :=
  {| Prologue.Address := address;
     Prologue.Type_ := PrologueNoFramePointer;
     Prologue.Instructions := "sub rsp, 0x" +:+ hexOfString (Imm_String imm) |}.

Definition pushOnlyAt (address : Z) : Prologue.t :=
  {| Prologue.Address := address;
     Prologue.Type_ := ProloguePushOnly;
     Prologue.Instructions := "push rbp" |}.

Definition leaBasedAt (address : Z) : Prologue.t :=
  {| Prologue.Address := address;
     Prologue.Type_ := PrologueLEABased;
     Prologue.Instructions := "lea rsp, [rsp-offset]" |}.

(** The boundary-gated patterns, as a test on the decoded instruction and
    the record each gives at [address]. *)
Definition gatedPattern (inst : x86asm.Inst) (address : Z) (p : Prologue.t) : Prop :=
  (x86asm.Op inst = x86asm.SUB /\
   x86asm.arg 0 inst = x86asm.AReg x86asm.RSP /\
   exists imm, x86asm.arg 1 inst = x86asm.AImm imm /\ (0 < imm)%Z /\
               p = noFramePointerAt address imm) \/
  (x86asm.Op inst = x86asm.PUSH /\
   x86asm.arg 0 inst = x86asm.AReg x86asm.RBP /\
   p = pushOnlyAt address) \/
  (x86asm.Op inst = x86asm.LEA /\
   x86asm.arg 0 inst = x86asm.AReg x86asm.RSP /\
   p = leaBasedAt address).

(** What the entries of the fusion map keep of their origin: backlinks
    satisfy [Q], and an entry with a prologue kind sits at an address
    satisfying [P]. *)
Definition provenance (P Q : Z -> Prop) (candidates : gmap Z FunctionCandidate.t) : Prop :=
  forall k c,
    candidates !! k = Some c ->
    Forall Q (FunctionCandidate.CalledFrom c) /\
    Forall Q (FunctionCandidate.JumpedFrom c) /\
    (is_Some (FunctionCandidate.PrologueType c) -> P k).

(** The candidate [DetectFunctions] gives for [callRel32] at base zero. *)
Definition callRel32Candidate : FunctionCandidate.t :=
  {| FunctionCandidate.Address := 16;
     FunctionCandidate.DetectionType := DetectionCallTarget;
     FunctionCandidate.PrologueType := None;
     FunctionCandidate.CalledFrom := [0%Z];
     FunctionCandidate.JumpedFrom := [];
     FunctionCandidate.Confidence := ConfidenceMedium |}.

(** The candidate [DetectFunctions] gives for [twoCallsOneTarget]. *)
Definition twoCallsCandidate : FunctionCandidate.t :=
  {| FunctionCandidate.Address := 10;
     FunctionCandidate.DetectionType := DetectionBoth;
     FunctionCandidate.PrologueType := None;
     FunctionCandidate.CalledFrom := [0%Z; 5%Z];
     FunctionCandidate.JumpedFrom := [];
     FunctionCandidate.Confidence := ConfidenceHigh |}.


(** A classic prologue at 0, a call at 4 to offset 0x10, a return, NOP
    fill, and a classic prologue at 0x10: the layout of the fusion test,
    shortened. *)
Definition classicThenCall : list byte :=
  [x55; x48; x89; xe5; xe8; x07; x00; x00; x00; xc3; x90; x90; x90; x90; x90; xc3;
   x55; x48; x89; xe5; xc3].

Definition classicThenCallCandidates : list FunctionCandidate.t :=
  [ {| FunctionCandidate.Address := 0;
       FunctionCandidate.DetectionType := DetectionPrologueOnly;
       FunctionCandidate.PrologueType := Some PrologueClassic;
       FunctionCandidate.CalledFrom := [];
       FunctionCandidate.JumpedFrom := [];
       FunctionCandidate.Confidence := ConfidenceMedium |};
    {| FunctionCandidate.Address := 16;
       FunctionCandidate.DetectionType := DetectionBoth;
       FunctionCandidate.PrologueType := Some PrologueClassic;
       FunctionCandidate.CalledFrom := [4%Z];
       FunctionCandidate.JumpedFrom := [];
       FunctionCandidate.Confidence := ConfidenceHigh |} ].

(** [call $-0x20] at 0x100, and [b +0x100] at 0x1000. *)
Definition callRel32Back : list byte := [xe8; xe0; xff; xff; xff].
Definition bForward : list byte := arm64Insn 0x14000040.

(** ** What fusion computes, address by address *)

(** The edges that pass the filter of the edge loop and point at [k]. *)
Definition hitsAt (k : Z) (edges : list CallSiteEdge.t) : list CallSiteEdge.t :=
  filter (fun e => contributes e = true /\ CallSiteEdge.TargetAddr e = k) edges.

(** The prologue record the first loop leaves at [k]: the last one with
    that address. *)
Definition lastPrologueAt (k : Z) (prologues : list Prologue.t) : option Prologue.t :=
  last (filter (fun p => Prologue.Address p = k) prologues).

(** The sources of the calls among [hits], and of the others, in order. *)
Definition callSources (hits : list CallSiteEdge.t) : list Z :=
  CallSiteEdge.SourceAddr <$> filter (fun e => CallSiteEdge.Type_ e = CallSiteCall) hits.

Definition jumpSources (hits : list CallSiteEdge.t) : list Z :=
  CallSiteEdge.SourceAddr <$> filter (fun e => CallSiteEdge.Type_ e <> CallSiteCall) hits.

(** An entry that went through the upgrade branch at least once. *)
Definition upgraded (k : Z) (kind : option PrologueType) (hits : list CallSiteEdge.t)
    : FunctionCandidate.t :=
  {| FunctionCandidate.Address := k;
     FunctionCandidate.DetectionType := DetectionBoth;
     FunctionCandidate.PrologueType := kind;
     FunctionCandidate.CalledFrom := callSources hits;
     FunctionCandidate.JumpedFrom := jumpSources hits;
     FunctionCandidate.Confidence := ConfidenceHigh |}.

(** The entry of the map at [k], read off the prologue record left there
    and the edges that point there. *)
Definition entryAt (k : Z) (p : option Prologue.t) (hits : list CallSiteEdge.t)
    : option FunctionCandidate.t :=
  match p, hits with
  | None, [] => None
  | Some p, [] => Some (candidateOfPrologue p)
  | Some p, _ :: _ => Some (upgraded k (Some (Prologue.Type_ p)) hits)
  | None, [e] => Some (candidateOfEdge e)
  | None, _ :: _ :: _ => Some (upgraded k None hits)
  end.

(** The prologue records and the edges of [classicThenCall] at base 0. *)
Definition classicThenCallPrologues : list Prologue.t :=
  [ {| Prologue.Address := 0; Prologue.Type_ := ProloguePushOnly;
       Prologue.Instructions := "push rbp" |};
    {| Prologue.Address := 0; Prologue.Type_ := PrologueClassic;
       Prologue.Instructions := "push rbp; mov rbp, rsp" |};
    {| Prologue.Address := 16; Prologue.Type_ := ProloguePushOnly;
       Prologue.Instructions := "push rbp" |};
    {| Prologue.Address := 16; Prologue.Type_ := PrologueClassic;
       Prologue.Instructions := "push rbp; mov rbp, rsp" |} ].

Definition classicThenCallEdges : list CallSiteEdge.t :=
  [ {| CallSiteEdge.SourceAddr := 4; CallSiteEdge.TargetAddr := 16;
       CallSiteEdge.Type_ := CallSiteCall;
       CallSiteEdge.AddressMode := AddressingModePCRelative;
       CallSiteEdge.Confidence := ConfidenceHigh |} ].

(** The edges of [twoCallsOneTarget] at base 0. *)
Definition twoCallsOneTargetEdges : list CallSiteEdge.t :=
  [ {| CallSiteEdge.SourceAddr := 0; CallSiteEdge.TargetAddr := 10;
       CallSiteEdge.Type_ := CallSiteCall;
       CallSiteEdge.AddressMode := AddressingModePCRelative;
       CallSiteEdge.Confidence := ConfidenceHigh |};
    {| CallSiteEdge.SourceAddr := 5; CallSiteEdge.TargetAddr := 10;
       CallSiteEdge.Type_ := CallSiteCall;
       CallSiteEdge.AddressMode := AddressingModePCRelative;
       CallSiteEdge.Confidence := ConfidenceHigh |} ].

(** The orders the scans keep: edges by source, prologue records by
    address. *)
Definition sourceLt (a b : CallSiteEdge.t) : Prop :=
  (CallSiteEdge.SourceAddr a < CallSiteEdge.SourceAddr b)%Z.

Definition recordLe (a b : Prologue.t) : Prop :=
  (Prologue.Address a <= Prologue.Address b)%Z.

(** Two calls, the second one through a register. *)
Definition callThenCallRAX : list byte := callRel32 ++ callRAX.

(** ** The ARM64 scan, word by word *)

(** The edges the ARM64 loop appends for the word at [offset]. *)
Definition emitARM64 (arm64Decode : list byte -> option arm64asm.Inst) (code : list byte)
    (baseAddr : Z) (offset : nat) : list CallSiteEdge.t :=
  match arm64Decode (take insnLen (drop offset code)) with
  | None => []
  | Some inst => option_list (edgeOfARM64 inst (uint64 (baseAddr + Z.of_nat offset)))
  end.

(** The offsets of the whole words of a buffer. *)
Definition wordOffsets (code : list byte) : list nat :=
  (fun k => insnLen * k) <$> seq 0 (length code / insnLen).

(** A call and a jump, one word each. *)
Definition blThenB : list byte := blForward ++ bForward.

(** ** The patterns of the prologue scan, as tests on decoded instructions *)

Definition isPushRBP (inst : x86asm.Inst) : Prop :=
  x86asm.Op inst = x86asm.PUSH /\ x86asm.arg 0 inst = x86asm.AReg x86asm.RBP.

Definition isMovRBPRSP (inst : x86asm.Inst) : Prop :=
  x86asm.Op inst = x86asm.MOV /\
  x86asm.arg 0 inst = x86asm.AReg x86asm.RBP /\
  x86asm.arg 1 inst = x86asm.AReg x86asm.RSP.

Definition classicAt (address : Z) : Prologue.t :=
  {| Prologue.Address := address;
     Prologue.Type_ := PrologueClassic;
     Prologue.Instructions := "push rbp; mov rbp, rsp" |}.

(** [push rbp; mov rbp, rsp; ret]. *)
Definition classicThenRet : list byte := [x55; x48; x89; xe5; xc3].

(** ** Sample ELF files

    A reader is stood for by what [elf.NewFile] makes of it. *)

Definition textOf (addr : Z) (code : list byte) : elf.Section :=
  {| elf.Name := ".text"; elf.Addr := addr; elf.Size := Z.of_nat (length code);
     elf.Data := code; elf.DataErr := elf.NoError |}.

Definition elfOf (machine : elf.Machine) (addr : Z) (code : list byte) : elf.Opened :=
  elf.Parsed {| elf.Machine_ := machine; elf.Sections := [textOf addr code] |}.

Definition opened (o : elf.Opened) : elf.Opened := o.

(** ** The encoders of the convergence test (package resurgo_test)

    [encodeCallRel32] and [encodeJmpRel32] write five bytes into the buffer
    at [offset]; an index out of range panics, which is [None] here.
    [uint32(int32(int64(target) - int64(source+5)))] is the difference
    reduced to 32 bits. *)

(** [binary.LittleEndian.PutUint32]. *)
Definition PutUint32 (v : Z) : list byte :=
  [byteOfZ v; byteOfZ (Z.shiftr v 8); byteOfZ (Z.shiftr v 16); byteOfZ (Z.shiftr v 24)].



(** [arm64BranchInsn]: the word of a BL ([opBase] 0x94000000) or a B
    ([opBase] 0x14000000) from [source] to [target].  The difference is
    taken in 64 signed bits and divided by four towards zero. *)
Definition arm64BranchInsn (opBase source target : Z) : Z :=
  let off := signed 64 (uint64 (target - source)) in
  let imm26 := Z.land (Z.quot off 4 mod 2 ^ 32) 0x03FFFFFF in
  Z.lor opBase imm26.

(** The edge a direct call or jump from [source] to [target] gives. *)
Definition directEdge (source target : Z) (cfType : CallSiteType) (confidence : Confidence)
    : CallSiteEdge.t :=
  {| CallSiteEdge.SourceAddr := source;
     CallSiteEdge.TargetAddr := target;
     CallSiteEdge.Type_ := cfType;
     CallSiteEdge.AddressMode := AddressingModePCRelative;
     CallSiteEdge.Confidence := confidence |}.








(** [call [rip-6]] at 0x1000: the operand is the memory at 0x1000, the
    address of the instruction itself. *)
Definition callRIPBack : list byte := [xff; x15; xfa; xff; xff; xff].

(** The edge the scan returns for it. *)
Definition callRIPBackEdge : CallSiteEdge.t :=
  {| CallSiteEdge.SourceAddr := 0x1000;
     CallSiteEdge.TargetAddr := 0x100001000;
     CallSiteEdge.Type_ := CallSiteCall;
     CallSiteEdge.AddressMode := AddressingModePCRelative;
     CallSiteEdge.Confidence := ConfidenceMedium |}.

(** A landing pad followed by [sub rsp, 0x20], and [nop], a byte no
    64-bit instruction starts with, then [sub rsp, 0x20]. *)
Definition endbrThenSub : list byte := ENDBR64 ++ [x48; x83; xec; x20].
Definition nopGarbageThenSub : list byte := [x90; x06; x48; x83; xec; x20].


(** * Properties *)

Lemma uint64_range z : is_uint64 (uint64 z).
Proof. unfold is_uint64, uint64. apply Z.mod_pos_bound. lia. Qed.

Lemma uint64_small z : is_uint64 z -> uint64 z = z.
Proof. unfold is_uint64, uint64. intros H. apply Z.mod_small. lia. Qed.

Lemma uint64_idem z : uint64 (uint64 z) = uint64 z.
Proof. apply uint64_small, uint64_range. Qed.

Lemma uint64_add_l a b : uint64 (uint64 a + b) = uint64 (a + b).
Proof. unfold uint64. apply Zplus_mod_idemp_l. Qed.

Lemma uint64_add_r a b : uint64 (a + uint64 b) = uint64 (a + b).
Proof. unfold uint64. apply Zplus_mod_idemp_r. Qed.

Lemma uint64_sub_l a b : uint64 (uint64 a - b) = uint64 (a - b).
Proof. unfold uint64. apply Zminus_mod_idemp_l. Qed.


Lemma of_loop_Ok {A} (o : option A) (a : A) : of_loop o = Ok a <-> o = Some a.
Proof. destruct o; simpl; split; intros H; congruence. Qed.



Lemma Forall_append_edge (P : CallSiteEdge.t -> Prop) result edge :
  Forall P result -> (forall e, edge = Some e -> P e) -> Forall P (append_edge result edge).
Proof.
  intros Hr He. destruct edge as [e|]; simpl; [|done].
  apply Forall_app. split; [done|]. apply Forall_singleton. by apply He.
Qed.

(** ** The AMD64 call-site scan, position by position *)

Section CallSitesAMD64.

Variable x86Decode : list byte -> option x86asm.Inst.
Variable code : list byte.
Variable baseAddr : Z.

Lemma detectCallSitesAMD64_loop_exit fuel offset addr result :
  length code <= offset ->
  detectCallSitesAMD64_loop x86Decode fuel code offset addr result = Some result.
Proof.
  intros H. destruct fuel; simpl; rewrite bool_decide_false by lia; done.
Qed.

Lemma detectCallSitesAMD64_loop_step fuel offset addr result :
  offset < length code ->
  detectCallSitesAMD64_loop x86Decode (S fuel) code offset addr result =
  detectCallSitesAMD64_loop x86Decode fuel code (advanceAMD64 x86Decode code offset)
    (uint64 (addr + Z.of_nat (advanceAMD64 x86Decode code offset - offset)))
    (append_edge result (emitAMD64 x86Decode code offset addr)).
Proof.
  intros H. cbn [detectCallSitesAMD64_loop]. rewrite bool_decide_true by done.
  unfold advanceAMD64, emitAMD64.
  destruct (isENDBR code offset).
  - replace (offset + 4 - offset) with 4 by lia. done.
  - destruct (x86Decode (drop offset code)) as [inst|].
    + replace (offset + x86asm.Len inst - offset) with (x86asm.Len inst) by lia. done.
    + replace (offset + 1 - offset) with 1 by lia. done.
Qed.

Lemma detectCallSitesAMD64_loop_fuel0 offset addr result out :
  detectCallSitesAMD64_loop x86Decode 0 code offset addr result = Some out ->
  length code <= offset /\ out = result.
Proof.
  simpl. case_bool_decide; [done|]. intros [= <-]. split; [lia|done].
Qed.

Lemma addr_advance offset next :
  offset <= next ->
  uint64 (uint64 (baseAddr + Z.of_nat offset) + Z.of_nat (next - offset)) =
  uint64 (baseAddr + Z.of_nat next).
Proof. intros H. rewrite uint64_add_l. f_equal. lia. Qed.

Lemma advanceAMD64_ge offset : offset <= advanceAMD64 x86Decode code offset.
Proof.
  unfold advanceAMD64. destruct (isENDBR code offset); [lia|].
  destruct (x86Decode (drop offset code)); lia.
Qed.


(** Whatever holds of every edge emitted at a visited offset holds of
    the whole result. *)
Lemma detectCallSitesAMD64_loop_inv (P : CallSiteEdge.t -> Prop) :
  (forall offset e,
      visitedAMD64 x86Decode code offset -> offset < length code ->
      emitAMD64 x86Decode code offset (uint64 (baseAddr + Z.of_nat offset)) = Some e -> P e) ->
  forall fuel offset result out,
    visitedAMD64 x86Decode code offset -> Forall P result ->
    detectCallSitesAMD64_loop x86Decode fuel code offset
      (uint64 (baseAddr + Z.of_nat offset)) result = Some out ->
    Forall P out.
Proof.
  intros HP. induction fuel as [|fuel IH]; intros offset result out Hv Hr H.
  - apply detectCallSitesAMD64_loop_fuel0 in H as [_ ->]. done.
  - destruct (decide (offset < length code)) as [Hlt|Hge].
    + rewrite detectCallSitesAMD64_loop_step in H by done.
      rewrite addr_advance in H by apply advanceAMD64_ge.
      eapply IH; [| |exact H].
      * by constructor.
      * apply Forall_append_edge; [done|]. intros e He. by eapply HP.
    + rewrite detectCallSitesAMD64_loop_exit in H by lia. by injection H as <-.
Qed.

(** A run that ends passes through every visited offset. *)
Lemma detectCallSitesAMD64_loop_visits fuel out offset :
  detectCallSitesAMD64_loop x86Decode fuel code 0 (uint64 (baseAddr + Z.of_nat 0)) [] = Some out ->
  visitedAMD64 x86Decode code offset ->
  exists fuel' result,
    detectCallSitesAMD64_loop x86Decode fuel' code offset
      (uint64 (baseAddr + Z.of_nat offset)) result = Some out.
Proof.
  intros Hrun Hv. induction Hv as [|offset Hv IH Hlt].
  - by exists fuel, [].
  - destruct IH as (fuel' & result & H).
    destruct fuel' as [|fuel'].
    + apply detectCallSitesAMD64_loop_fuel0 in H as [Hge _]. lia.
    + rewrite detectCallSitesAMD64_loop_step in H by done.
      rewrite addr_advance in H by apply advanceAMD64_ge.
      by eexists _, _.
Qed.


(** With a decoder that never reports length zero, [length code - offset]
    iterations are enough. *)
Lemma detectCallSitesAMD64_loop_total :
  (forall src inst, x86Decode src = Some inst -> 1 <= x86asm.Len inst) ->
  forall fuel offset addr result,
    length code - offset <= fuel ->
    is_Some (detectCallSitesAMD64_loop x86Decode fuel code offset addr result).
Proof.
  intros Hlen. induction fuel as [|fuel IH]; intros offset addr result Hf.
  - rewrite detectCallSitesAMD64_loop_exit by lia. done.
  - destruct (decide (offset < length code)) as [Hlt|Hge].
    + rewrite detectCallSitesAMD64_loop_step by done. apply IH.
      assert (offset < advanceAMD64 x86Decode code offset); [|lia].
      unfold advanceAMD64. destruct (isENDBR code offset); [lia|].
      destruct (x86Decode (drop offset code)) as [inst|] eqn:E; [|lia].
      apply Hlen in E. lia.
    + rewrite detectCallSitesAMD64_loop_exit by lia. done.
Qed.

End CallSitesAMD64.

(** ** The ARM64 call-site scan *)

Section CallSitesARM64.

Variable arm64Decode : list byte -> option arm64asm.Inst.
Variable code : list byte.
Variable baseAddr : Z.

Lemma detectCallSitesARM64_loop_exit fuel offset result :
  length code < offset + 4 ->
  detectCallSitesARM64_loop arm64Decode fuel code baseAddr offset result = Some result.
Proof.
  intros H. destruct fuel; simpl; unfold insnLen; rewrite bool_decide_false by lia; done.
Qed.

Lemma detectCallSitesARM64_loop_step fuel offset result :
  offset + 4 <= length code ->
  detectCallSitesARM64_loop arm64Decode (S fuel) code baseAddr offset result =
  detectCallSitesARM64_loop arm64Decode fuel code baseAddr (offset + 4)
    (append_edge result
       (inst ← arm64Decode (take 4 (drop offset code));
        edgeOfARM64 inst (uint64 (baseAddr + Z.of_nat offset)))).
Proof.
  intros H. cbn [detectCallSitesARM64_loop]. unfold insnLen.
  rewrite bool_decide_true by done.
  destruct (arm64Decode (take 4 (drop offset code))); done.
Qed.

Lemma detectCallSitesARM64_loop_inv (P : CallSiteEdge.t -> Prop) :
  (forall offset inst e,
      offset + 4 <= length code ->
      arm64Decode (take 4 (drop offset code)) = Some inst ->
      edgeOfARM64 inst (uint64 (baseAddr + Z.of_nat offset)) = Some e -> P e) ->
  forall fuel offset result out,
    Forall P result ->
    detectCallSitesARM64_loop arm64Decode fuel code baseAddr offset result = Some out ->
    Forall P out.
Proof.
  intros HP. induction fuel as [|fuel IH]; intros offset result out Hr H.
  - simpl in H. case_bool_decide; [done|]. by injection H as <-.
  - destruct (decide (offset + 4 <= length code)) as [Hle|Hgt].
    + rewrite detectCallSitesARM64_loop_step in H by done.
      eapply IH; [|exact H].
      apply Forall_append_edge; [done|]. intros e He.
      destruct (arm64Decode (take 4 (drop offset code))) as [inst|] eqn:E; [|done].
      by eapply HP.
    + rewrite detectCallSitesARM64_loop_exit in H by lia. by injection H as <-.
Qed.

Lemma detectCallSitesARM64_loop_total : forall fuel offset result,
  length code - offset <= fuel ->
  is_Some (detectCallSitesARM64_loop arm64Decode fuel code baseAddr offset result).
Proof.
  induction fuel as [|fuel IH]; intros offset result Hf.
  - rewrite detectCallSitesARM64_loop_exit by lia. done.
  - destruct (decide (offset + 4 <= length code)) as [Hle|Hgt].
    + rewrite detectCallSitesARM64_loop_step by done. apply IH. lia.
    + rewrite detectCallSitesARM64_loop_exit by lia. done.
Qed.

End CallSitesARM64.

(** ** The AMD64 prologue scan *)

Section ProloguesAMD64.

Variable x86Decode : list byte -> option x86asm.Inst.
Variable code : list byte.
Variable baseAddr : Z.

Lemma DetectPrologues_loop_exit fuel offset addr prevInsn result :
  length code <= offset ->
  prologo.DetectPrologues_loop x86Decode fuel code offset addr prevInsn result = Some result.
Proof.
  intros H. destruct fuel; simpl; rewrite bool_decide_false by lia; done.
Qed.

Lemma DetectPrologues_loop_step fuel offset addr prevInsn result :
  offset < length code ->
  prologo.DetectPrologues_loop x86Decode (S fuel) code offset addr prevInsn result =
  prologo.DetectPrologues_loop x86Decode fuel code (advancePrologues x86Decode code offset)
    (uint64 (addr + Z.of_nat (advancePrologues x86Decode code offset - offset)))
    (x86Decode (drop offset code))
    (result ++ emitPrologues x86Decode code offset prevInsn addr).
Proof.
  intros H. cbn [prologo.DetectPrologues_loop]. rewrite bool_decide_true by done.
  unfold advancePrologues, emitPrologues.
  destruct (x86Decode (drop offset code)) as [inst|].
  - replace (offset + x86asm.Len inst - offset) with (x86asm.Len inst) by lia. done.
  - replace (offset + 1 - offset) with 1 by lia. by rewrite app_nil_r.
Qed.

Lemma DetectPrologues_loop_fuel0 offset addr prevInsn result out :
  prologo.DetectPrologues_loop x86Decode 0 code offset addr prevInsn result = Some out ->
  length code <= offset /\ out = result.
Proof.
  simpl. case_bool_decide; [done|]. intros [= <-]. split; [lia|done].
Qed.

Lemma advancePrologues_ge offset : offset <= advancePrologues x86Decode code offset.
Proof.
  unfold advancePrologues. destruct (x86Decode (drop offset code)); lia.
Qed.


Lemma DetectPrologues_loop_inv (P : Prologue.t -> Prop) :
  (forall offset prevInsn p,
      visitedPrologues x86Decode code offset prevInsn -> offset < length code ->
      p ∈ emitPrologues x86Decode code offset prevInsn (uint64 (baseAddr + Z.of_nat offset)) ->
      P p) ->
  forall fuel offset prevInsn result out,
    visitedPrologues x86Decode code offset prevInsn -> Forall P result ->
    prologo.DetectPrologues_loop x86Decode fuel code offset
      (uint64 (baseAddr + Z.of_nat offset)) prevInsn result = Some out ->
    Forall P out.
Proof.
  intros HP. induction fuel as [|fuel IH]; intros offset prevInsn result out Hv Hr H.
  - apply DetectPrologues_loop_fuel0 in H as [_ ->]. done.
  - destruct (decide (offset < length code)) as [Hlt|Hge].
    + rewrite DetectPrologues_loop_step in H by done.
      rewrite addr_advance in H by apply advancePrologues_ge.
      eapply IH; [| |exact H].
      * by econstructor.
      * apply Forall_app. split; [done|]. apply Forall_forall. intros p Hp. by eapply HP.
    + rewrite DetectPrologues_loop_exit in H by lia. by injection H as <-.
Qed.



Lemma DetectPrologues_loop_total :
  (forall src inst, x86Decode src = Some inst -> 1 <= x86asm.Len inst) ->
  forall fuel offset addr prevInsn result,
    length code - offset <= fuel ->
    is_Some (prologo.DetectPrologues_loop x86Decode fuel code offset addr prevInsn result).
Proof.
  intros Hlen. induction fuel as [|fuel IH]; intros offset addr prevInsn result Hf.
  - rewrite DetectPrologues_loop_exit by lia. done.
  - destruct (decide (offset < length code)) as [Hlt|Hge].
    + rewrite DetectPrologues_loop_step by done. apply IH.
      assert (offset < advancePrologues x86Decode code offset); [|lia].
      unfold advancePrologues.
      destruct (x86Decode (drop offset code)) as [inst|] eqn:E; [|lia].
      apply Hlen in E. lia.
    + rewrite DetectPrologues_loop_exit by lia. done.
Qed.

(** The window holds the instruction that ends at the cursor. *)
Lemma visitedPrologues_window offset p :
  visitedPrologues x86Decode code offset (Some p) ->
  exists start, start < length code /\ offset = start + x86asm.Len p.
Proof.
  intros Hv. inversion Hv as [|start prevInsn Hv' Hlt Ho Hd].
  exists start. split; [done|]. unfold advancePrologues. by rewrite Hd.
Qed.

End ProloguesAMD64.

(** ** Fusion *)

Lemma foldl_preserves {A B} (P : A -> Prop) (f : A -> B -> A) (l : list B) :
  forall a, P a -> (forall a b, b ∈ l -> P a -> P (f a b)) -> P (foldl f a l).
Proof.
  induction l as [|b l IH]; intros a Ha Hstep; simpl; [done|].
  apply IH.
  - apply Hstep; [left|done].
  - intros a' b' Hb'. apply Hstep. by right.
Qed.

Lemma keyed_addPrologue candidates p : keyed candidates -> keyed (addPrologue candidates p).
Proof.
  intros Hk k c. unfold addPrologue. rewrite lookup_insert.
  case_decide as Heq; [|by apply Hk]. intros [= <-]. done.
Qed.

Lemma keyed_addEdge candidates edge : keyed candidates -> keyed (addEdge candidates edge).
Proof.
  intros Hk k c. unfold addEdge. destruct (contributes edge); [|by apply Hk].
  destruct (candidates !! CallSiteEdge.TargetAddr edge) as [candidate|] eqn:E;
    rewrite lookup_insert; (case_decide as Heq; [|by apply Hk]); intros [= <-]; simpl.
  - rewrite <- Heq. by apply Hk.
  - done.
Qed.

Lemma keyed_fuse prologues edges : keyed (fuse prologues edges).
Proof.
  unfold fuse. apply foldl_preserves.
  - apply foldl_preserves.
    + intros k c. by rewrite lookup_empty.
    + intros a b _. apply keyed_addPrologue.
  - intros a b _. apply keyed_addEdge.
Qed.

Lemma addressLe_trans : Transitive addressLe.
Proof. unfold addressLe. intros a b c. lia. Qed.

Lemma addressLe_total : Total addressLe.
Proof. unfold addressLe. intros a b. lia. Qed.

Lemma keyed_addresses candidates :
  keyed candidates ->
  FunctionCandidate.Address <$> (map_to_list candidates).*2 = (map_to_list candidates).*1.
Proof.
  intros Hk. rewrite <- list_fmap_compose. apply list_fmap_ext.
  intros i [k c] Hin. simpl. apply Hk. apply elem_of_map_to_list.
  apply list_elem_of_lookup. by exists i.
Qed.

Lemma sortedCandidates_Permutation candidates :
  sortedCandidates candidates ≡ₚ (map_to_list candidates).*2.
Proof. apply merge_sort_Permutation. Qed.

Lemma sortedCandidates_NoDup candidates :
  keyed candidates -> NoDup (FunctionCandidate.Address <$> sortedCandidates candidates).
Proof.
  intros Hk. rewrite sortedCandidates_Permutation, keyed_addresses by done.
  apply NoDup_fst_map_to_list.
Qed.

Lemma elem_of_sortedCandidates candidates c :
  keyed candidates ->
  c ∈ sortedCandidates candidates <-> candidates !! FunctionCandidate.Address c = Some c.
Proof.
  intros Hk. rewrite sortedCandidates_Permutation, list_elem_of_fmap. split.
  - intros ([k c'] & -> & Hin). simpl. apply elem_of_map_to_list in Hin.
    by rewrite (Hk _ _ Hin).
  - intros Hl. exists (FunctionCandidate.Address c, c). split; [done|].
    by apply elem_of_map_to_list.
Qed.

Lemma StronglySorted_strict (l : list FunctionCandidate.t) :
  StronglySorted addressLe l -> NoDup (FunctionCandidate.Address <$> l) ->
  StronglySorted addressLt l.
Proof.
  induction 1 as [|a l Hs IH Hall]; intros Hnd; [constructor|].
  rewrite fmap_cons in Hnd. apply NoDup_cons in Hnd as [Hnotin Hnd].
  constructor; [by apply IH|].
  apply Forall_forall. intros b Hb.
  rewrite Forall_forall in Hall. specialize (Hall b Hb).
  unfold addressLe in Hall. unfold addressLt.
  assert (FunctionCandidate.Address a <> FunctionCandidate.Address b); [|lia].
  intros Heq. apply Hnotin. rewrite Heq. apply list_elem_of_fmap. by exists b.
Qed.

Lemma sortedCandidates_strict candidates :
  keyed candidates -> StronglySorted addressLt (sortedCandidates candidates).
Proof.
  intros Hk. apply StronglySorted_strict.
  - apply StronglySorted_merge_sort; [apply addressLe_trans|apply addressLe_total].
  - by apply sortedCandidates_NoDup.
Qed.

(** What [DetectFunctions] returns when it returns a list. *)
Lemma DetectFunctions_Ok x86Decode arm64Decode DetectPrologues code baseAddr arch candidates :
  DetectFunctions x86Decode arm64Decode DetectPrologues code baseAddr arch = Ok candidates ->
  exists prologues edges,
    DetectPrologues code baseAddr arch = Ok prologues /\
    DetectCallSites x86Decode arm64Decode code baseAddr arch = Ok edges /\
    candidates = sortedCandidates (fuse prologues edges).
Proof.
  unfold DetectFunctions. intros H.
  destruct (DetectPrologues code baseAddr arch) as [prologues| |]; [|done..].
  destruct (DetectCallSites x86Decode arm64Decode code baseAddr arch) as [edges| |]; [|done..].
  injection H as <-. by exists prologues, edges.
Qed.

(** C5: the list [DetectFunctions] returns is strictly ascending by
    address, hence holds at most one candidate per address, whatever the
    prologue records and edges were. *)
Theorem DetectFunctions_strictly_ascending
    x86Decode arm64Decode DetectPrologues code baseAddr arch candidates :
  DetectFunctions x86Decode arm64Decode DetectPrologues code baseAddr arch = Ok candidates ->
  StronglySorted addressLt candidates /\
  NoDup (FunctionCandidate.Address <$> candidates).
Proof.
  intros H. apply DetectFunctions_Ok in H as (prologues & edges & _ & _ & ->).
  split.
  - apply sortedCandidates_strict, keyed_fuse.
  - apply sortedCandidates_NoDup, keyed_fuse.
Qed.

(** ** Call sites: what the scans return *)

Lemma extractTargetAMD64_source inst sourceAddr cfType baseConfidence e :
  extractTargetAMD64 inst sourceAddr cfType baseConfidence = Some e ->
  CallSiteEdge.SourceAddr e = sourceAddr /\ CallSiteEdge.Type_ e = cfType.
Proof.
  unfold extractTargetAMD64. intros H.
  destruct (x86asm.arg 0 inst) as [|r|m|i|rel]; try done.
  - by injection H as <-.
  - repeat case_match; by injection H as <-.
  - by injection H as <-.
Qed.

Lemma pcrel_sum a len d :
  uint64 (uint64 (a + len) + uint64 d) = uint64 (a + len + d).
Proof. by rewrite uint64_add_r, uint64_add_l. Qed.

Lemma extractTargetAMD64_pcrel inst sourceAddr cfType baseConfidence e :
  extractTargetAMD64 inst sourceAddr cfType baseConfidence = Some e ->
  CallSiteEdge.AddressMode e = AddressingModePCRelative ->
  pcRelativeFormAMD64 inst e.
Proof.
  unfold extractTargetAMD64, pcRelativeFormAMD64. intros H Hmode.
  destruct (x86asm.arg 0 inst) as [|r|m|i|rel] eqn:Harg; try done.
  - injection H as <-. done.
  - destruct (bool_decide (x86asm.Base m = x86asm.RIP) &&
              bool_decide (x86asm.Index m = x86asm.NoReg)) eqn:Hrip.
    + injection H as <-. right. exists m. simpl.
      apply andb_true_iff in Hrip as [Hb Hi].
      apply bool_decide_eq_true in Hb, Hi.
      repeat split; try done. apply pcrel_sum.
    + case_match; injection H as <-; done.
  - injection H as <-. left. exists rel. split; [done|]. simpl. apply pcrel_sum.
Qed.

Lemma edgeOfAMD64_source inst addr e :
  edgeOfAMD64 inst addr = Some e -> CallSiteEdge.SourceAddr e = addr.
Proof.
  unfold edgeOfAMD64. intros H.
  destruct (x86asm.Op inst); try done; by apply extractTargetAMD64_source in H as [? _].
Qed.

Lemma edgeOfAMD64_pcrel inst addr e :
  edgeOfAMD64 inst addr = Some e ->
  CallSiteEdge.AddressMode e = AddressingModePCRelative ->
  pcRelativeFormAMD64 inst e.
Proof.
  unfold edgeOfAMD64. intros H.
  destruct (x86asm.Op inst); try done; by eapply extractTargetAMD64_pcrel.
Qed.

Lemma edgeOfARM64_Some inst addr e :
  edgeOfARM64 inst addr = Some e ->
  (arm64asm.Op inst = arm64asm.BL \/ arm64asm.Op inst = arm64asm.B) /\
  CallSiteEdge.SourceAddr e = addr /\
  CallSiteEdge.AddressMode e = AddressingModePCRelative /\
  CallSiteEdge.Confidence e <> ConfidenceNone /\
  pcRelativeFormARM64 inst e.
Proof.
  unfold edgeOfARM64, extractTargetARM64, pcRelativeFormARM64, confidenceOfB. intros H.
  destruct (arm64asm.Op inst) eqn:Hop; try done;
    destruct (arm64asm.arg 0 inst) as [| | |pcrel| | |] eqn:Harg; try done;
    injection H as <-; simpl.
  - split; [by right|]. repeat split; try done.
    + by case_match.
    + exists pcrel. split; [done|]. apply uint64_add_r.
  - split; [by left|]. repeat split; try done.
    exists pcrel. split; [done|]. apply uint64_add_r.
Qed.

Lemma detectCallSitesAMD64_run x86Decode code baseAddr edges :
  is_uint64 baseAddr ->
  detectCallSitesAMD64 x86Decode code baseAddr = Ok edges ->
  detectCallSitesAMD64_loop x86Decode (S (length code)) code 0
    (uint64 (baseAddr + Z.of_nat 0)) [] = Some edges.
Proof.
  intros Hb H. apply of_loop_Ok in H.
  rewrite Z.add_0_r, uint64_small by done. exact H.
Qed.

Lemma detectCallSitesAMD64_origin x86Decode code baseAddr edges :
  is_uint64 baseAddr ->
  detectCallSitesAMD64 x86Decode code baseAddr = Ok edges ->
  Forall (originAMD64 x86Decode code baseAddr) edges.
Proof.
  intros Hb H. apply detectCallSitesAMD64_run in H; [|done].
  eapply detectCallSitesAMD64_loop_inv; [|constructor|constructor|exact H].
  intros offset e Hv Hlt He. unfold emitAMD64 in He.
  destruct (isENDBR code offset) eqn:Hpad; [done|].
  destruct (x86Decode (drop offset code)) as [inst|] eqn:Hd; [|done].
  by exists offset, inst.
Qed.

Lemma detectCallSitesARM64_origin arm64Decode code baseAddr edges :
  detectCallSitesARM64 arm64Decode code baseAddr = Ok edges ->
  Forall (originARM64 arm64Decode code baseAddr) edges.
Proof.
  intros H. apply of_loop_Ok in H.
  eapply detectCallSitesARM64_loop_inv; [|constructor|exact H].
  intros offset inst e Hle Hd He. by exists offset, inst.
Qed.

(** The scans return: the ARM64 one always, the AMD64 one as soon as the
    decoder reports no zero-length instruction. *)
Lemma detectCallSitesARM64_returns arm64Decode code baseAddr :
  exists edges, detectCallSitesARM64 arm64Decode code baseAddr = Ok edges.
Proof.
  unfold detectCallSitesARM64.
  destruct (detectCallSitesARM64_loop_total arm64Decode code baseAddr
              (S (length code)) 0 []) as [edges ->]; [lia|].
  by exists edges.
Qed.

Lemma detectCallSitesAMD64_returns x86Decode code baseAddr :
  (forall src inst, x86Decode src = Some inst -> 1 <= x86asm.Len inst) ->
  exists edges, detectCallSitesAMD64 x86Decode code baseAddr = Ok edges.
Proof.
  intros Hlen. unfold detectCallSitesAMD64.
  destruct (detectCallSitesAMD64_loop_total x86Decode code Hlen
              (S (length code)) 0 baseAddr []) as [edges ->]; [lia|].
  by exists edges.
Qed.

Lemma DetectPrologues_returns x86Decode code baseAddr :
  (forall src inst, x86Decode src = Some inst -> 1 <= x86asm.Len inst) ->
  exists prologues, prologo.DetectPrologues x86Decode code baseAddr = Ok prologues.
Proof.
  intros Hlen. unfold prologo.DetectPrologues.
  destruct (DetectPrologues_loop_total x86Decode code Hlen
              (S (length code)) 0 baseAddr None []) as [prologues ->]; [lia|].
  by exists prologues.
Qed.

(** X24: an edge with mode PcRelative and a confidence other than None has
    the address of its decoded instruction as source, and as target: on
    AMD64 the source plus the instruction length plus the value the
    decoder reports, the [Rel] operand or the [Disp] field of a RIP-based
    memory operand taken as it is; on ARM64 the source plus the
    PC-relative operand; all computed modulo 2^64. *)
Theorem DetectCallSites_pc_relative_target
    x86Decode arm64Decode code baseAddr arch edges e :
  is_uint64 baseAddr ->
  DetectCallSites x86Decode arm64Decode code baseAddr arch = Ok edges ->
  e ∈ edges ->
  CallSiteEdge.AddressMode e = AddressingModePCRelative ->
  CallSiteEdge.Confidence e <> ConfidenceNone ->
  match arch with
  | ArchAMD64 =>
      exists offset inst,
        offset < length code /\
        x86Decode (drop offset code) = Some inst /\
        CallSiteEdge.SourceAddr e = uint64 (baseAddr + Z.of_nat offset) /\
        pcRelativeFormAMD64 inst e
  | ArchARM64 =>
      exists offset inst,
        offset + 4 <= length code /\
        arm64Decode (take 4 (drop offset code)) = Some inst /\
        CallSiteEdge.SourceAddr e = uint64 (baseAddr + Z.of_nat offset) /\
        pcRelativeFormARM64 inst e
  | ArchOther _ => False
  end.
Proof.
  intros Hb H Hin Hmode _. destruct arch as [| |token]; simpl in H; [| |done].
  - apply detectCallSitesAMD64_origin in H; [|done].
    rewrite Forall_forall in H.
    destruct (H e Hin) as (offset & inst & _ & Hlt & _ & Hd & He).
    exists offset, inst. repeat split; try done.
    + by apply edgeOfAMD64_source in He.
    + by eapply edgeOfAMD64_pcrel.
  - apply detectCallSitesARM64_origin in H.
    rewrite Forall_forall in H.
    destruct (H e Hin) as (offset & inst & Hle & Hd & He).
    apply edgeOfARM64_Some in He as (_ & Hsrc & _ & _ & Hform).
    by exists offset, inst.
Qed.

Lemma DetectCallSites_pc_relative_target_witness :
  DetectCallSites x86Fragment arm64Fragment callRel32 0 ArchAMD64 = Ok [callRel32Edge] /\
  exists offset inst,
    offset < length callRel32 /\
    x86Fragment (drop offset callRel32) = Some inst /\
    CallSiteEdge.SourceAddr callRel32Edge = uint64 (0 + Z.of_nat offset) /\
    pcRelativeFormAMD64 inst callRel32Edge.
Proof.
  split; [vm_compute; reflexivity|].
  apply (DetectCallSites_pc_relative_target x86Fragment arm64Fragment callRel32 0
           ArchAMD64 [callRel32Edge] callRel32Edge).
  - unfold is_uint64. lia.
  - vm_compute. reflexivity.
  - constructor.
  - reflexivity.
  - discriminate.
Defined.

(** C3 fails on the code for a RIP-based operand with a negative
    displacement.  The decoder stores the 32-bit displacement of a memory
    operand without sign extension, and [extractTargetAMD64] adds
    [uint64(arg.Disp)] as it is, where its comment announces the
    referenced address, next instruction plus displacement.  For
    [call [rip-6]] at 0x1000 that address is 0x1000; the edge returned has
    target 0x100001000. *)
Theorem rip_relative_negative_displacement :
  x86Fragment callRIPBack =
    Some (x86Inst x86asm.CALL [x86asm.AMem (memRIP 0xFFFFFFFA)] 6) /\
  signed 32 (leZ (take 4 (drop 2 callRIPBack))) = (-6)%Z /\
  DetectCallSites x86Fragment arm64Fragment callRIPBack 0x1000 ArchAMD64 =
    Ok [callRIPBackEdge] /\
  CallSiteEdge.TargetAddr callRIPBackEdge = 0x100001000%Z /\
  CallSiteEdge.TargetAddr callRIPBackEdge <>
    uint64 (CallSiteEdge.SourceAddr callRIPBackEdge + 6 +
            signed 32 (leZ (take 4 (drop 2 callRIPBack)))) /\
  uint64 (CallSiteEdge.SourceAddr callRIPBackEdge + 6 +
          signed 32 (leZ (take 4 (drop 2 callRIPBack)))) = 0x1000%Z.
Proof. repeat split; vm_compute; (reflexivity || discriminate). Qed.



Lemma isENDBR_pad pad call :
  pad = ENDBR64 \/ pad = ENDBR32 -> isENDBR (pad ++ call) 0 = true.
Proof.
  intros [-> | ->]; unfold isENDBR; simpl; done.
Qed.

Lemma isENDBR_after_pad pad call :
  pad = ENDBR64 \/ pad = ENDBR32 -> isENDBR (pad ++ call) 4 = isENDBR call 0.
Proof.
  intros [-> | ->]; unfold isENDBR; simpl;
    rewrite (bool_decide_ext (8 <= S (S (S (S (length call))))) (4 <= length call)) by lia;
    reflexivity.
Qed.

Lemma detectCallSitesAMD64_loop_pad_call x86Decode fuel pad call inst baseAddr :
  pad = ENDBR64 \/ pad = ENDBR32 ->
  isENDBR call 0 = false ->
  x86Decode call = Some inst ->
  x86asm.Len inst = length call ->
  0 < length call ->
  detectCallSitesAMD64_loop x86Decode (S (S fuel)) (pad ++ call) 0 baseAddr [] =
    Some (append_edge [] (edgeOfAMD64 inst (uint64 (baseAddr + 4)))).
Proof.
  intros Hpad Hcall Hd Hlen Hpos.
  assert (length pad = 4) as Hpadlen by (by destruct Hpad as [-> | ->]).
  assert (drop 4 (pad ++ call) = call) as Hdrop.
  { rewrite <- Hpadlen. by rewrite drop_app_length. }
  rewrite detectCallSitesAMD64_loop_step by (rewrite length_app; lia).
  unfold advanceAMD64, emitAMD64. rewrite isENDBR_pad by done.
  change (0 + 4) with 4. change (Z.of_nat (4 - 0)) with 4%Z. cbn [append_edge].
  destruct (decide (4 < length (pad ++ call))) as [Hlt|Hge].
  - rewrite detectCallSitesAMD64_loop_step by done.
    unfold advanceAMD64, emitAMD64. rewrite isENDBR_after_pad, Hcall, Hdrop, Hd by done.
    rewrite detectCallSitesAMD64_loop_exit by (rewrite length_app; lia). done.
  - rewrite length_app in Hge. lia.
Qed.

(** C4: at a landing pad the AMD64 call-site loop moves four bytes on and
    appends nothing; so a buffer made of a landing pad and one direct CALL
    gives exactly the edge of that CALL, with the address just after the
    pad as source.  The prologue loop of detector.go has no such test: at
    a landing pad it makes its decode attempt, goes where the decoder
    sends it and keeps what the decoder read there as its window. *)
Theorem detectCallSitesAMD64_skips_ENDBR
    x86Decode arm64Decode fuel code offset addr result pad call inst rel baseAddr
    prevInsn prologues :
  isENDBR code offset = true ->
  pad = ENDBR64 \/ pad = ENDBR32 ->
  isENDBR call 0 = false ->
  x86Decode call = Some inst ->
  x86asm.Op inst = x86asm.CALL ->
  x86asm.arg 0 inst = x86asm.ARel rel ->
  x86asm.Len inst = length call ->
  0 < length call ->
  detectCallSitesAMD64_loop x86Decode (S fuel) code offset addr result =
    detectCallSitesAMD64_loop x86Decode fuel code (offset + 4) (uint64 (addr + 4)) result /\
  DetectCallSites x86Decode arm64Decode (pad ++ call) baseAddr ArchAMD64 =
    Ok [ {| CallSiteEdge.SourceAddr := uint64 (baseAddr + 4);
            CallSiteEdge.TargetAddr :=
              uint64 (uint64 (baseAddr + 4) + Z.of_nat (x86asm.Len inst) + rel);
            CallSiteEdge.Type_ := CallSiteCall;
            CallSiteEdge.AddressMode := AddressingModePCRelative;
            CallSiteEdge.Confidence := ConfidenceHigh |} ] /\
  prologo.DetectPrologues_loop x86Decode (S fuel) code offset addr prevInsn prologues =
    prologo.DetectPrologues_loop x86Decode fuel code
      (advancePrologues x86Decode code offset)
      (uint64 (addr + Z.of_nat (advancePrologues x86Decode code offset - offset)))
      (x86Decode (drop offset code))
      (prologues ++ emitPrologues x86Decode code offset prevInsn addr).
Proof.
  intros Hskip Hpad Hcall Hd Hop Harg Hlen Hpos.
  assert (offset < length code) as Hin.
  { unfold isENDBR in Hskip. apply andb_true_iff in Hskip as [Hle _].
    apply bool_decide_eq_true in Hle. lia. }
  split; [|split].
  - cbn [detectCallSitesAMD64_loop]. rewrite Hskip.
    by rewrite bool_decide_true by done.
  - unfold DetectCallSites, detectCallSitesAMD64.
    replace (S (length (pad ++ call))) with (S (S (length pad + length call - 1)))
      by (rewrite length_app; lia).
    rewrite (detectCallSitesAMD64_loop_pad_call x86Decode _ pad call inst) by done.
    unfold edgeOfAMD64, extractTargetAMD64. rewrite Hop, Harg. simpl.
    by rewrite pcrel_sum.
  - by apply DetectPrologues_loop_step.
Qed.

Lemma detectCallSitesAMD64_skips_ENDBR_witness :
  DetectCallSites x86Fragment arm64Fragment (ENDBR64 ++ callRel32_17) 0 ArchAMD64 =
    Ok [endbrCallEdge].
Proof.
  apply (detectCallSitesAMD64_skips_ENDBR x86Fragment arm64Fragment 0
           (ENDBR64 ++ callRel32_17) 0 0%Z [] ENDBR64 callRel32_17
           (x86Inst x86asm.CALL [x86asm.ARel 23] 5) 23 0 None []).
  - reflexivity.
  - by left.
  - reflexivity.
  - vm_compute. reflexivity.
  - reflexivity.
  - reflexivity.
  - reflexivity.
  - simpl. lia.
Defined.

(** The prologue scan of detector.go at a landing pad: the pad is not
    skipped.  The decoder is asked at the pad and the scan stops next one
    byte further, inside the pad; the window it holds at the instruction
    after the pad is what the decoder read of the pad's last byte, so the
    [sub rsp, 0x20] that follows gives no record, where the scan of the
    same bytes without the pad reports it. *)
Lemma prologue_scan_decodes_landing_pad :
  isENDBR endbrThenSub 0 = true /\
  advancePrologues x86Fragment endbrThenSub 0 = 1 /\
  visitedPrologues x86Fragment endbrThenSub 1 (x86Fragment endbrThenSub) /\
  x86Fragment endbrThenSub <> None /\
  prologo.DetectPrologues x86Fragment endbrThenSub 0x1000 = Ok [] /\
  prologo.DetectPrologues x86Fragment (drop 4 endbrThenSub) 0x1004 =
    Ok [noFramePointerAt 0x1004 32].
Proof.
  split; [reflexivity|]. split; [reflexivity|]. split.
  { refine (visitedPrologues_next x86Fragment endbrThenSub 0 None
              (visitedPrologues_start _ _) _).
    simpl. lia. }
  split; [discriminate|]. split; vm_compute; reflexivity.
Qed.



(** C7: an architecture tag other than AMD64 and ARM64 makes
    [DetectCallSites] return an error, and [DetectFunctions] too, whatever
    its prologue entry point returned. *)
Theorem unsupported_arch_is_error
    x86Decode arm64Decode DetectPrologues code baseAddr token :
  returns (DetectPrologues code baseAddr (ArchOther token)) ->
  DetectCallSites x86Decode arm64Decode code baseAddr (ArchOther token) =
    Err ("unsupported architecture: " +:+ token) /\
  exists msg,
    DetectFunctions x86Decode arm64Decode DetectPrologues code baseAddr (ArchOther token) =
      Err msg.
Proof.
  intros Hret. split; [done|]. unfold DetectFunctions, returns in *.
  destruct (DetectPrologues code baseAddr (ArchOther token)) as [prologues|msg|].
  - simpl. by eexists.
  - by eexists.
  - done.
Qed.

Lemma unsupported_arch_is_error_witness :
  DetectCallSites x86Fragment arm64Fragment [x00] 0 (ArchOther "mips") =
    Err ("unsupported architecture: " +:+ "mips") /\
  exists msg,
    DetectFunctions x86Fragment arm64Fragment
      (SpecModel.DetectPrologues x86Fragment arm64Fragment) [x00] 0 (ArchOther "mips") =
      Err msg.
Proof.
  apply (unsupported_arch_is_error x86Fragment arm64Fragment
           (SpecModel.DetectPrologues x86Fragment arm64Fragment) [x00] 0 "mips").
  unfold returns. simpl. discriminate.
Defined.

(** C8: on a buffer shorter than one instruction (empty on AMD64, under
    four bytes on ARM64) the three detectors return the empty list and no
    error, for every base address and either decoder. *)
Theorem short_buffer_gives_empty_lists x86Decode arm64Decode code baseAddr arch :
  (arch = ArchAMD64 /\ length code < 1) \/ (arch = ArchARM64 /\ length code < 4) ->
  SpecModel.DetectPrologues x86Decode arm64Decode code baseAddr arch = Ok [] /\
  DetectCallSites x86Decode arm64Decode code baseAddr arch = Ok [] /\
  DetectFunctionsFull x86Decode arm64Decode code baseAddr arch = Ok [].
Proof.
  intros Hshort.
  assert (SpecModel.DetectPrologues x86Decode arm64Decode code baseAddr arch = Ok [] /\
          DetectCallSites x86Decode arm64Decode code baseAddr arch = Ok []) as [Hp Hc].
  { destruct Hshort as [[-> Hlen] | [-> Hlen]]; simpl.
    - unfold prologo.DetectPrologues, detectCallSitesAMD64.
      rewrite DetectPrologues_loop_exit, detectCallSitesAMD64_loop_exit by lia. done.
    - unfold SpecModel.detectProloguesARM64, detectCallSitesARM64.
      rewrite detectCallSitesARM64_loop_exit by lia.
      cbn [SpecModel.detectProloguesARM64_loop].
      rewrite bool_decide_false by lia. done. }
  repeat split; try done.
  unfold DetectFunctionsFull, DetectFunctions. rewrite Hp, Hc. done.
Qed.

Lemma short_buffer_gives_empty_lists_witness :
  SpecModel.DetectPrologues x86Fragment arm64Fragment [xfd; x7b; xbf] 4096 ArchARM64 = Ok [] /\
  DetectCallSites x86Fragment arm64Fragment [xfd; x7b; xbf] 4096 ArchARM64 = Ok [] /\
  DetectFunctionsFull x86Fragment arm64Fragment [xfd; x7b; xbf] 4096 ArchARM64 = Ok [].
Proof.
  apply (short_buffer_gives_empty_lists x86Fragment arm64Fragment [xfd; x7b; xbf] 4096
           ArchARM64).
  right. split; [reflexivity|simpl; lia].
Defined.

(** ** Prologues: the window after a decode failure *)

Lemma DetectPrologues_run x86Decode code baseAddr prologues :
  is_uint64 baseAddr ->
  prologo.DetectPrologues x86Decode code baseAddr = Ok prologues ->
  prologo.DetectPrologues_loop x86Decode (S (length code)) code 0
    (uint64 (baseAddr + Z.of_nat 0)) None [] = Some prologues.
Proof.
  intros Hb H. apply of_loop_Ok in H.
  rewrite Z.add_0_r, uint64_small by done. exact H.
Qed.




(** ** Addresses and the buffer *)

Lemma inBuffer_offset code baseAddr offset :
  is_uint64 baseAddr ->
  (baseAddr + Z.of_nat (length code) <= 2 ^ 64)%Z ->
  offset < length code ->
  inBuffer code baseAddr (uint64 (baseAddr + Z.of_nat offset)).
Proof.
  unfold is_uint64, inBuffer. intros Hb Hfit Hlt.
  rewrite uint64_small by (unfold is_uint64; lia). lia.
Qed.

Lemma matchPatterns_address prevInsn inst addr p :
  p ∈ prologo.matchPatterns prevInsn inst addr ->
  Prologue.Address p = addr \/
  exists q, prevInsn = Some q /\ Prologue.Address p = uint64 (addr - Z.of_nat (x86asm.Len q)).
Proof.
  unfold prologo.matchPatterns. rewrite !elem_of_app.
  intros [Hc | [Hn | [Hp | Hl]]].
  - right. unfold prologo.classic in Hc. destruct prevInsn as [q|]; [|by inversion Hc].
    exists q. split; [done|]. case_match; [|by inversion Hc].
    apply list_elem_of_singleton in Hc as ->. done.
  - left. unfold prologo.noFramePointer in Hn.
    repeat case_match; try by inversion Hn.
    apply list_elem_of_singleton in Hn as ->. done.
  - left. unfold prologo.pushOnly in Hp. case_match; [|by inversion Hp].
    apply list_elem_of_singleton in Hp as ->. done.
  - left. unfold prologo.leaBased in Hl. case_match; [|by inversion Hl].
    apply list_elem_of_singleton in Hl as ->. done.
Qed.

Lemma DetectPrologues_in_buffer x86Decode code baseAddr prologues :
  is_uint64 baseAddr ->
  (baseAddr + Z.of_nat (length code) <= 2 ^ 64)%Z ->
  prologo.DetectPrologues x86Decode code baseAddr = Ok prologues ->
  Forall (fun p => inBuffer code baseAddr (Prologue.Address p)) prologues.
Proof.
  intros Hb Hfit H. apply DetectPrologues_run in H; [|done].
  eapply (DetectPrologues_loop_inv x86Decode code baseAddr
            (fun p => inBuffer code baseAddr (Prologue.Address p)));
    [|constructor|constructor|exact H].
  intros offset prevInsn p Hv Hlt Hp. unfold emitPrologues in Hp.
  destruct (x86Decode (drop offset code)) as [inst|]; [|by inversion Hp].
  apply matchPatterns_address in Hp as [-> | (q & -> & ->)].
  - by apply inBuffer_offset.
  - apply visitedPrologues_window in Hv as (start & Hstart & ->).
    rewrite uint64_sub_l.
    replace (baseAddr + Z.of_nat (start + x86asm.Len q) - Z.of_nat (x86asm.Len q))%Z
      with (baseAddr + Z.of_nat start)%Z by lia.
    by apply inBuffer_offset.
Qed.

Lemma DetectCallSites_sources_in_buffer x86Decode arm64Decode code baseAddr arch edges :
  is_uint64 baseAddr ->
  (baseAddr + Z.of_nat (length code) <= 2 ^ 64)%Z ->
  DetectCallSites x86Decode arm64Decode code baseAddr arch = Ok edges ->
  Forall (fun e => inBuffer code baseAddr (CallSiteEdge.SourceAddr e)) edges.
Proof.
  intros Hb Hfit H. destruct arch as [| |token]; simpl in H; [| |done].
  - apply detectCallSitesAMD64_origin in H; [|done].
    eapply Forall_impl; [exact H|]. intros e (offset & inst & _ & Hlt & _ & _ & He).
    apply edgeOfAMD64_source in He as ->. by apply inBuffer_offset.
  - apply detectCallSitesARM64_origin in H.
    eapply Forall_impl; [exact H|]. intros e (offset & inst & Hle & _ & He).
    apply edgeOfARM64_Some in He as (_ & -> & _). apply inBuffer_offset; try done. lia.
Qed.

Lemma provenance_addPrologue (P Q : Z -> Prop) candidates p :
  P (Prologue.Address p) -> provenance P Q candidates ->
  provenance P Q (addPrologue candidates p).
Proof.
  intros Hp Hinv k c. unfold addPrologue. rewrite lookup_insert.
  case_decide as Heq; [|by apply Hinv]. intros [= <-]. subst k. simpl.
  repeat split; try constructor. done.
Qed.

Lemma provenance_addEdge (P Q : Z -> Prop) candidates edge :
  Q (CallSiteEdge.SourceAddr edge) -> provenance P Q candidates ->
  provenance P Q (addEdge candidates edge).
Proof.
  intros Hq Hinv k c. unfold addEdge. destruct (contributes edge); [|by apply Hinv].
  destruct (candidates !! CallSiteEdge.TargetAddr edge) as [candidate|] eqn:E;
    rewrite lookup_insert; (case_decide as Heq; [|by apply Hinv]); intros [= <-]; simpl.
  - destruct (Hinv _ _ E) as (Hc & Hj & Hp). subst k.
    case_bool_decide; repeat split; try done; apply Forall_app; split; try done;
      by apply Forall_singleton.
  - case_bool_decide; repeat split; try constructor; try done;
      try (by intros [? ?]); constructor.
Qed.

Lemma provenance_fuse (P Q : Z -> Prop) prologues edges :
  Forall (fun p => P (Prologue.Address p)) prologues ->
  Forall (fun e => Q (CallSiteEdge.SourceAddr e)) edges ->
  provenance P Q (fuse prologues edges).
Proof.
  intros Hp He. unfold fuse. apply foldl_preserves.
  - apply foldl_preserves.
    + intros k c. by rewrite lookup_empty.
    + intros a p Hin. apply provenance_addPrologue.
      rewrite Forall_forall in Hp. by apply Hp.
  - intros a e Hin. apply provenance_addEdge.
    rewrite Forall_forall in He. by apply He.
Qed.

(** C2, as the code has it: when the buffer does not wrap around the
    address space, every edge source, every prologue address of the AMD64
    scanner, every backlink of a candidate and the address of every
    candidate that carries a prologue kind lie in the buffer.  Targets are
    computed from displacements and are not confined to it. *)
Theorem sources_and_prologues_in_buffer
    x86Decode arm64Decode DetectPrologues code baseAddr arch :
  is_uint64 baseAddr ->
  (baseAddr + Z.of_nat (length code) <= 2 ^ 64)%Z ->
  (forall edges e,
      DetectCallSites x86Decode arm64Decode code baseAddr arch = Ok edges ->
      e ∈ edges -> inBuffer code baseAddr (CallSiteEdge.SourceAddr e)) /\
  (forall prologues p,
      prologo.DetectPrologues x86Decode code baseAddr = Ok prologues ->
      p ∈ prologues -> inBuffer code baseAddr (Prologue.Address p)) /\
  (forall prologues candidates c,
      DetectPrologues code baseAddr arch = Ok prologues ->
      Forall (fun p => inBuffer code baseAddr (Prologue.Address p)) prologues ->
      DetectFunctions x86Decode arm64Decode DetectPrologues code baseAddr arch = Ok candidates ->
      c ∈ candidates ->
      Forall (inBuffer code baseAddr)
        (FunctionCandidate.CalledFrom c ++ FunctionCandidate.JumpedFrom c) /\
      (is_Some (FunctionCandidate.PrologueType c) ->
       inBuffer code baseAddr (FunctionCandidate.Address c))).
Proof.
  intros Hb Hfit. split; [|split].
  - intros edges e H Hin.
    eapply DetectCallSites_sources_in_buffer in H; [|done..].
    rewrite Forall_forall in H. by apply H.
  - intros prologues p H Hin.
    eapply DetectPrologues_in_buffer in H; [|done..].
    rewrite Forall_forall in H. by apply H.
  - intros prologues candidates c Hdp Hall H Hin.
    destruct (DetectFunctions_Ok _ _ _ _ _ _ _ H) as (ps & es & Hps & Hes & ->).
    rewrite Hdp in Hps. injection Hps as <-.
    apply elem_of_sortedCandidates in Hin; [|apply keyed_fuse].
    eapply DetectCallSites_sources_in_buffer in Hes; [|done..].
    destruct (provenance_fuse _ _ _ _ Hall Hes _ _ Hin) as (Hc & Hj & Hp).
    split; [|done]. apply Forall_app. by split.
Qed.

Lemma sources_and_prologues_in_buffer_witness :
  DetectCallSites x86Fragment arm64Fragment callRel32 0 ArchAMD64 = Ok [callRel32Edge] /\
  inBuffer callRel32 0 (CallSiteEdge.SourceAddr callRel32Edge).
Proof.
  split; [vm_compute; reflexivity|].
  pose proof (sources_and_prologues_in_buffer x86Fragment arm64Fragment
                (SpecModel.DetectPrologues x86Fragment arm64Fragment)
                callRel32 0 ArchAMD64) as H.
  destruct H as (Hedges & _).
  - unfold is_uint64. lia.
  - simpl. lia.
  - apply (Hedges [callRel32Edge] callRel32Edge).
    + vm_compute. reflexivity.
    + constructor.
Defined.

(** C2, as stated, fails: the target of the call in [callRel32], and the
    candidate created from it, lie past the end of the five-byte buffer. *)
Lemma target_outside_buffer :
  DetectCallSites x86Fragment arm64Fragment callRel32 0 ArchAMD64 = Ok [callRel32Edge] /\
  ~ inBuffer callRel32 0 (CallSiteEdge.TargetAddr callRel32Edge) /\
  DetectFunctionsFull x86Fragment arm64Fragment callRel32 0 ArchAMD64 =
    Ok [callRel32Candidate] /\
  ~ inBuffer callRel32 0 (FunctionCandidate.Address callRel32Candidate).
Proof.
  repeat split; try (vm_compute; reflexivity); unfold inBuffer; simpl; lia.
Qed.

(** The layout of the fusion test, run through [DetectFunctions]. *)
Lemma DetectFunctions_strictly_ascending_witness :
  DetectFunctionsFull x86Fragment arm64Fragment classicThenCall 0 ArchAMD64 =
    Ok classicThenCallCandidates /\
  StronglySorted addressLt classicThenCallCandidates /\
  NoDup (FunctionCandidate.Address <$> classicThenCallCandidates).
Proof.
  split; [vm_compute; reflexivity|].
  apply (DetectFunctions_strictly_ascending x86Fragment arm64Fragment
           (SpecModel.DetectPrologues x86Fragment arm64Fragment) classicThenCall 0 ArchAMD64).
  vm_compute. reflexivity.
Defined.

(** C1 fails on the code: two calls to an address where no prologue was
    found give a candidate with detection Both and confidence High.  The
    second edge finds the entry its predecessor created and takes it for a
    prologue entry. *)
Theorem both_without_prologue :
  prologo.DetectPrologues x86Fragment twoCallsOneTarget 0 = Ok [] /\
  SpecModel.DetectPrologues x86Fragment arm64Fragment twoCallsOneTarget 0 ArchAMD64 = Ok [] /\
  DetectFunctionsFull x86Fragment arm64Fragment twoCallsOneTarget 0 ArchAMD64 =
    Ok [twoCallsCandidate] /\
  FunctionCandidate.DetectionType twoCallsCandidate = DetectionBoth /\
  FunctionCandidate.PrologueType twoCallsCandidate = None.
Proof. repeat split; vm_compute; reflexivity. Qed.

(** ** The single-instruction scenarios of the specification (section 8) *)

Example scenario_call_rel32 :
  DetectCallSites x86Fragment arm64Fragment callRel32 0 ArchAMD64 = Ok [callRel32Edge].
Proof. vm_compute. reflexivity. Qed.

Example scenario_call_rel32_backwards :
  DetectCallSites x86Fragment arm64Fragment callRel32Back 0x100 ArchAMD64 =
    Ok [ {| CallSiteEdge.SourceAddr := 0x100;
            CallSiteEdge.TargetAddr := 0xE5;
            CallSiteEdge.Type_ := CallSiteCall;
            CallSiteEdge.AddressMode := AddressingModePCRelative;
            CallSiteEdge.Confidence := ConfidenceHigh |} ].
Proof. vm_compute. reflexivity. Qed.

Example scenario_call_register :
  DetectCallSites x86Fragment arm64Fragment callRAX 0x200 ArchAMD64 =
    Ok [ {| CallSiteEdge.SourceAddr := 0x200;
            CallSiteEdge.TargetAddr := 0;
            CallSiteEdge.Type_ := CallSiteCall;
            CallSiteEdge.AddressMode := AddressingModeRegisterIndirect;
            CallSiteEdge.Confidence := ConfidenceNone |} ].
Proof. vm_compute. reflexivity. Qed.

Example scenario_call_rip_relative :
  DetectCallSites x86Fragment arm64Fragment callRIP 0x1000 ArchAMD64 = Ok [callRIPEdge].
Proof. vm_compute. reflexivity. Qed.

Example scenario_bl :
  DetectCallSites x86Fragment arm64Fragment blForward 0x1000 ArchARM64 = Ok [blForwardEdge].
Proof. vm_compute. reflexivity. Qed.

Example scenario_b :
  DetectCallSites x86Fragment arm64Fragment bForward 0x1000 ArchARM64 =
    Ok [ {| CallSiteEdge.SourceAddr := 0x1000;
            CallSiteEdge.TargetAddr := 0x1100;
            CallSiteEdge.Type_ := CallSiteJump;
            CallSiteEdge.AddressMode := AddressingModePCRelative;
            CallSiteEdge.Confidence := ConfidenceMedium |} ].
Proof. vm_compute. reflexivity. Qed.

(** The example of detector.go's package: nop; push rbp; mov rbp, rsp. *)
Example example_DetectPrologues :
  prologo.DetectPrologues x86Fragment [x90; x55; x48; x89; xe5] 0x1000 =
    Ok [ {| Prologue.Address := 0x1001;
            Prologue.Type_ := PrologueClassic;
            Prologue.Instructions := "push rbp; mov rbp, rsp" |} ].
Proof. vm_compute. reflexivity. Qed.

(** ** Fusion, entry by entry *)

Lemma fuse_snoc prologues edges edge :
  fuse prologues (edges ++ [edge]) = addEdge (fuse prologues edges) edge.
Proof. unfold fuse. by rewrite foldl_app. Qed.

Lemma prologue_loop_lookup prologues k :
  foldl addPrologue ∅ prologues !! k = candidateOfPrologue <$> lastPrologueAt k prologues.
Proof.
  unfold lastPrologueAt.
  induction prologues as [|p prologues IH] using rev_ind; [simpl; by rewrite lookup_empty|].
  rewrite foldl_app, filter_app. simpl. unfold addPrologue at 1.
  rewrite lookup_insert. case_decide as Heq.
  - rewrite filter_cons_True, filter_nil by done. by rewrite last_snoc.
  - rewrite filter_cons_False, filter_nil, app_nil_r by done. exact IH.
Qed.

Lemma lastPrologueAt_Some k prologues p :
  lastPrologueAt k prologues = Some p -> p ∈ prologues /\ Prologue.Address p = k.
Proof.
  unfold lastPrologueAt. intros H. apply last_Some_elem_of in H.
  apply list_elem_of_filter in H as [Ha Hin]. done.
Qed.

Lemma lastPrologueAt_None k prologues :
  lastPrologueAt k prologues = None <-> forall p, p ∈ prologues -> Prologue.Address p <> k.
Proof.
  unfold lastPrologueAt. rewrite last_None. split.
  - intros Hnil p Hin Ha.
    assert (p ∈ filter (fun p => Prologue.Address p = k) prologues) as Hp
      by (by apply list_elem_of_filter).
    rewrite Hnil in Hp. by inversion Hp.
  - intros Hno. destruct (filter _ prologues) as [|p l] eqn:E; [done|].
    assert (p ∈ filter (fun p => Prologue.Address p = k) prologues) as Hp
      by (rewrite E; left).
    apply list_elem_of_filter in Hp as [Ha Hin]. by destruct (Hno p Hin).
Qed.

Lemma hitsAt_snoc k edges edge :
  hitsAt k (edges ++ [edge]) =
  hitsAt k edges ++
    (if decide (contributes edge = true /\ CallSiteEdge.TargetAddr edge = k) then [edge] else []).
Proof.
  unfold hitsAt. rewrite filter_app. f_equal.
Qed.

Lemma elem_of_hitsAt k edges e :
  e ∈ hitsAt k edges <->
  contributes e = true /\ CallSiteEdge.TargetAddr e = k /\ e ∈ edges.
Proof. unfold hitsAt. rewrite list_elem_of_filter. tauto. Qed.

Lemma callSources_snoc hits edge :
  callSources (hits ++ [edge]) =
  if bool_decide (CallSiteEdge.Type_ edge = CallSiteCall)
  then callSources hits ++ [CallSiteEdge.SourceAddr edge] else callSources hits.
Proof.
  unfold callSources. rewrite filter_app. case_bool_decide.
  - rewrite filter_cons_True, filter_nil by done. by rewrite fmap_app.
  - rewrite filter_cons_False, filter_nil, app_nil_r by done. done.
Qed.

Lemma jumpSources_snoc hits edge :
  jumpSources (hits ++ [edge]) =
  if bool_decide (CallSiteEdge.Type_ edge = CallSiteCall)
  then jumpSources hits else jumpSources hits ++ [CallSiteEdge.SourceAddr edge].
Proof.
  unfold jumpSources. rewrite filter_app. case_bool_decide.
  - rewrite filter_cons_False, filter_nil, app_nil_r by (intros Hn; by apply Hn). done.
  - rewrite filter_cons_True, filter_nil by done. by rewrite fmap_app.
Qed.

Lemma upgradeCandidate_upgraded k kind hits edge :
  upgradeCandidate (upgraded k kind hits) edge = upgraded k kind (hits ++ [edge]).
Proof.
  unfold upgradeCandidate, upgraded. simpl.
  rewrite callSources_snoc, jumpSources_snoc. done.
Qed.

Lemma upgradeCandidate_prologue p edge :
  upgradeCandidate (candidateOfPrologue p) edge =
  upgraded (Prologue.Address p) (Some (Prologue.Type_ p)) [edge].
Proof.
  unfold upgradeCandidate, upgraded, candidateOfPrologue, callSources, jumpSources. simpl.
  case_bool_decide.
  - rewrite filter_cons_True, filter_cons_False by (done || (intros Hn; by apply Hn)). done.
  - rewrite filter_cons_False, filter_cons_True by done. done.
Qed.

Lemma upgradeCandidate_edge e edge :
  upgradeCandidate (candidateOfEdge e) edge =
  upgraded (CallSiteEdge.TargetAddr e) None [e; edge].
Proof.
  replace [e; edge] with ([e] ++ [edge]) by done.
  rewrite <- upgradeCandidate_upgraded.
  unfold upgradeCandidate, upgraded, candidateOfEdge, callSources, jumpSources. simpl.
  destruct (decide (CallSiteEdge.Type_ e = CallSiteCall)) as [He|He].
  - rewrite (bool_decide_true _ He).
    rewrite filter_cons_True, filter_cons_False by (done || (intros Hn; by apply Hn)). done.
  - rewrite (bool_decide_false _ He).
    rewrite filter_cons_False, filter_cons_True by done. done.
Qed.

(** The map after both loops, at every address. *)
Lemma fuse_lookup prologues edges k :
  fuse prologues edges !! k = entryAt k (lastPrologueAt k prologues) (hitsAt k edges).
Proof.
  induction edges as [|edge edges IH] using rev_ind.
  - unfold fuse. simpl. rewrite prologue_loop_lookup.
    by destruct (lastPrologueAt k prologues).
  - rewrite fuse_snoc, hitsAt_snoc. unfold addEdge.
    destruct (contributes edge) eqn:Hc.
    + destruct (decide (CallSiteEdge.TargetAddr edge = k)) as [Ht|Ht].
      * rewrite decide_True by done. subst k.
        rewrite IH.
        destruct (lastPrologueAt (CallSiteEdge.TargetAddr edge) prologues) as [p|] eqn:Hp;
          destruct (hitsAt (CallSiteEdge.TargetAddr edge) edges) as [|h [|h' hits]] eqn:Hh;
          simpl; rewrite lookup_insert_eq; f_equal.
        -- rewrite upgradeCandidate_prologue.
           by destruct (lastPrologueAt_Some _ _ _ Hp) as [_ ->].
        -- by rewrite upgradeCandidate_upgraded.
        -- by rewrite upgradeCandidate_upgraded.
        -- rewrite upgradeCandidate_edge.
           assert (h ∈ hitsAt (CallSiteEdge.TargetAddr edge) edges) as Hin
             by (rewrite Hh; left).
           apply elem_of_hitsAt in Hin as (_ & -> & _). done.
        -- by rewrite upgradeCandidate_upgraded.
      * rewrite decide_False by tauto. rewrite app_nil_r.
        destruct (fuse prologues edges !! CallSiteEdge.TargetAddr edge);
          rewrite lookup_insert_ne by done; exact IH.
    + rewrite decide_False by (intros [? _]; congruence). rewrite app_nil_r. exact IH.
Qed.

Lemma contributes_true e :
  contributes e = true <->
  CallSiteEdge.Confidence e = ConfidenceHigh \/ CallSiteEdge.Confidence e = ConfidenceMedium.
Proof. unfold contributes. destruct (CallSiteEdge.Confidence e); simpl; intuition congruence. Qed.

Lemma hitsAt_nil k edges :
  hitsAt k edges = [] <->
  forall e, e ∈ edges -> contributes e = true -> CallSiteEdge.TargetAddr e <> k.
Proof.
  split.
  - intros Hnil e Hin Hc Ht.
    assert (e ∈ hitsAt k edges) as He by (by apply elem_of_hitsAt).
    rewrite Hnil in He. by inversion He.
  - intros Hno. destruct (hitsAt k edges) as [|e l] eqn:E; [done|].
    assert (e ∈ hitsAt k edges) as He by (rewrite E; left).
    apply elem_of_hitsAt in He as (Hc & Ht & Hin). by destruct (Hno e Hin Hc).
Qed.

(** The list [DetectFunctions] returns, candidate by candidate. *)
Lemma elem_of_fused prologues edges c :
  c ∈ sortedCandidates (fuse prologues edges) <->
  entryAt (FunctionCandidate.Address c)
    (lastPrologueAt (FunctionCandidate.Address c) prologues)
    (hitsAt (FunctionCandidate.Address c) edges) = Some c.
Proof. rewrite elem_of_sortedCandidates by apply keyed_fuse. by rewrite fuse_lookup. Qed.

Lemma fused_address prologues edges a :
  a ∈ FunctionCandidate.Address <$> sortedCandidates (fuse prologues edges) <->
  is_Some (fuse prologues edges !! a).
Proof.
  rewrite list_elem_of_fmap. split.
  - intros (c & -> & Hin). apply elem_of_sortedCandidates in Hin; [|apply keyed_fuse].
    by exists c.
  - intros [c Hc]. exists c. pose proof (keyed_fuse prologues edges _ _ Hc) as Ha.
    split; [done|]. apply elem_of_sortedCandidates; [apply keyed_fuse|]. by rewrite Ha.
Qed.

Lemma entryAt_is_Some k p hits :
  is_Some (entryAt k p hits) <-> is_Some p \/ hits <> [].
Proof.
  split.
  - intros [c Hc]. destruct p as [p|]; [left; by exists p|]. right. by intros ->.
  - intros [[q ->]|Hh].
    + destruct hits; by eexists.
    + destruct p, hits as [|h [|h' hits]]; try done; by eexists.
Qed.

Lemma DetectFunctions_fused x86Decode arm64Decode DetectPrologues code baseAddr arch
    prologues edges :
  DetectPrologues code baseAddr arch = Ok prologues ->
  DetectCallSites x86Decode arm64Decode code baseAddr arch = Ok edges ->
  DetectFunctions x86Decode arm64Decode DetectPrologues code baseAddr arch =
    Ok (sortedCandidates (fuse prologues edges)).
Proof. unfold DetectFunctions. by intros -> ->. Qed.

Lemma fused_addresses prologues edges a :
  a ∈ FunctionCandidate.Address <$> sortedCandidates (fuse prologues edges) <->
  (exists p, p ∈ prologues /\ Prologue.Address p = a) \/
  (exists e, e ∈ edges /\ CallSiteEdge.TargetAddr e = a /\
             (CallSiteEdge.Confidence e = ConfidenceHigh \/
              CallSiteEdge.Confidence e = ConfidenceMedium)).
Proof.
  rewrite fused_address, fuse_lookup, entryAt_is_Some. split.
  - intros [[p Hl]|Hh].
    + left. exists p. by apply lastPrologueAt_Some.
    + right. destruct (hitsAt a edges) as [|e l] eqn:E; [done|].
      assert (e ∈ hitsAt a edges) as Hin by (rewrite E; left).
      apply elem_of_hitsAt in Hin as (Hc & Ht & Hin).
      exists e. by rewrite <- contributes_true.
  - intros [(p & Hin & Ha)|(e & Hin & Ht & Hc)].
    + left. destruct (lastPrologueAt a prologues) as [q|] eqn:E; [by eexists|].
      rewrite lastPrologueAt_None in E. by destruct (E p Hin).
    + right. intros Hnil. rewrite hitsAt_nil in Hnil.
      apply contributes_true in Hc. by destruct (Hnil e Hin Hc).
Qed.

(** X1: the addresses of the candidates are exactly the addresses of the
    prologue records together with the targets of the edges of confidence
    High or Medium; an edge of confidence None or Low creates no
    candidate. *)
Theorem DetectFunctions_addresses
    x86Decode arm64Decode DetectPrologues code baseAddr arch prologues edges :
  DetectPrologues code baseAddr arch = Ok prologues ->
  DetectCallSites x86Decode arm64Decode code baseAddr arch = Ok edges ->
  exists candidates,
    DetectFunctions x86Decode arm64Decode DetectPrologues code baseAddr arch = Ok candidates /\
    forall a,
      a ∈ FunctionCandidate.Address <$> candidates <->
      (exists p, p ∈ prologues /\ Prologue.Address p = a) \/
      (exists e, e ∈ edges /\ CallSiteEdge.TargetAddr e = a /\
                 (CallSiteEdge.Confidence e = ConfidenceHigh \/
                  CallSiteEdge.Confidence e = ConfidenceMedium)).
Proof.
  intros Hp He. eexists. split; [by apply DetectFunctions_fused|].
  apply fused_addresses.
Qed.

Lemma DetectFunctions_addresses_witness :
  exists candidates,
    DetectFunctionsFull x86Fragment arm64Fragment classicThenCall 0 ArchAMD64 = Ok candidates /\
    forall a,
      a ∈ FunctionCandidate.Address <$> candidates <->
      (exists p, p ∈ classicThenCallPrologues /\ Prologue.Address p = a) \/
      (exists e, e ∈ classicThenCallEdges /\
                 CallSiteEdge.TargetAddr e = a /\
                 (CallSiteEdge.Confidence e = ConfidenceHigh \/
                  CallSiteEdge.Confidence e = ConfidenceMedium)).
Proof.
  apply (DetectFunctions_addresses x86Fragment arm64Fragment
           (SpecModel.DetectPrologues x86Fragment arm64Fragment) classicThenCall 0 ArchAMD64);
    vm_compute; reflexivity.
Defined.

Lemma callSources_hitsAt k edges :
  callSources (hitsAt k edges) =
  CallSiteEdge.SourceAddr <$>
    filter (fun e => CallSiteEdge.Type_ e = CallSiteCall /\
                     (CallSiteEdge.Confidence e = ConfidenceHigh \/
                      CallSiteEdge.Confidence e = ConfidenceMedium) /\
                     CallSiteEdge.TargetAddr e = k) edges.
Proof.
  unfold callSources, hitsAt. rewrite list_filter_filter. f_equal.
  apply list_filter_iff. intros e. rewrite contributes_true. tauto.
Qed.

Lemma jumpSources_hitsAt k edges :
  jumpSources (hitsAt k edges) =
  CallSiteEdge.SourceAddr <$>
    filter (fun e => CallSiteEdge.Type_ e <> CallSiteCall /\
                     (CallSiteEdge.Confidence e = ConfidenceHigh \/
                      CallSiteEdge.Confidence e = ConfidenceMedium) /\
                     CallSiteEdge.TargetAddr e = k) edges.
Proof.
  unfold jumpSources, hitsAt. rewrite list_filter_filter. f_equal.
  apply list_filter_iff. intros e. rewrite contributes_true. tauto.
Qed.

Lemma entryAt_backlinks k p hits c :
  entryAt k p hits = Some c ->
  FunctionCandidate.CalledFrom c = callSources hits /\
  FunctionCandidate.JumpedFrom c = jumpSources hits.
Proof.
  destruct p as [p|], hits as [|h [|h' hits]]; simpl; intros H; try done;
    injection H as <-; try done.
  unfold callSources, jumpSources. simpl.
  destruct (decide (CallSiteEdge.Type_ h = CallSiteCall)) as [Hh|Hh].
  - rewrite (bool_decide_true _ Hh).
    rewrite filter_cons_True, filter_cons_False by (done || (intros Hn; by apply Hn)). done.
  - rewrite (bool_decide_false _ Hh).
    rewrite filter_cons_False, filter_cons_True by done. done.
Qed.

(** X2: the back references of a candidate are exactly the sources of the
    edges of confidence High or Medium that point at its address, in the
    order the scan found them: the calls in [CalledFrom], every other
    edge in [JumpedFrom]. *)
Theorem DetectFunctions_backlinks
    x86Decode arm64Decode DetectPrologues code baseAddr arch prologues edges :
  DetectPrologues code baseAddr arch = Ok prologues ->
  DetectCallSites x86Decode arm64Decode code baseAddr arch = Ok edges ->
  exists candidates,
    DetectFunctions x86Decode arm64Decode DetectPrologues code baseAddr arch = Ok candidates /\
    forall c, c ∈ candidates ->
      FunctionCandidate.CalledFrom c =
        CallSiteEdge.SourceAddr <$>
          filter (fun e => CallSiteEdge.Type_ e = CallSiteCall /\
                           (CallSiteEdge.Confidence e = ConfidenceHigh \/
                            CallSiteEdge.Confidence e = ConfidenceMedium) /\
                           CallSiteEdge.TargetAddr e = FunctionCandidate.Address c) edges /\
      FunctionCandidate.JumpedFrom c =
        CallSiteEdge.SourceAddr <$>
          filter (fun e => CallSiteEdge.Type_ e <> CallSiteCall /\
                           (CallSiteEdge.Confidence e = ConfidenceHigh \/
                            CallSiteEdge.Confidence e = ConfidenceMedium) /\
                           CallSiteEdge.TargetAddr e = FunctionCandidate.Address c) edges.
Proof.
  intros Hp He. eexists. split; [by apply DetectFunctions_fused|].
  intros c Hc. apply elem_of_fused, entryAt_backlinks in Hc as [-> ->].
  by rewrite callSources_hitsAt, jumpSources_hitsAt.
Qed.

Lemma DetectFunctions_backlinks_witness :
  exists candidates,
    DetectFunctionsFull x86Fragment arm64Fragment twoCallsOneTarget 0 ArchAMD64 = Ok candidates /\
    forall c, c ∈ candidates ->
      FunctionCandidate.CalledFrom c =
        CallSiteEdge.SourceAddr <$>
          filter (fun e => CallSiteEdge.Type_ e = CallSiteCall /\
                           (CallSiteEdge.Confidence e = ConfidenceHigh \/
                            CallSiteEdge.Confidence e = ConfidenceMedium) /\
                           CallSiteEdge.TargetAddr e = FunctionCandidate.Address c)
            twoCallsOneTargetEdges /\
      FunctionCandidate.JumpedFrom c =
        CallSiteEdge.SourceAddr <$>
          filter (fun e => CallSiteEdge.Type_ e <> CallSiteCall /\
                           (CallSiteEdge.Confidence e = ConfidenceHigh \/
                            CallSiteEdge.Confidence e = ConfidenceMedium) /\
                           CallSiteEdge.TargetAddr e = FunctionCandidate.Address c)
            twoCallsOneTargetEdges.
Proof.
  apply (DetectFunctions_backlinks x86Fragment arm64Fragment
           (SpecModel.DetectPrologues x86Fragment arm64Fragment) twoCallsOneTarget 0 ArchAMD64 []);
    vm_compute; reflexivity.
Defined.

Lemma entryAt_kind k p hits c :
  entryAt k p hits = Some c -> FunctionCandidate.PrologueType c = Prologue.Type_ <$> p.
Proof.
  destruct p as [p|], hits as [|h [|h' hits]]; simpl; intros H; try done;
    by injection H as <-.
Qed.

(** X3: the prologue kind of a candidate is the kind of the last prologue
    record at its address, and is absent exactly when no prologue record
    has that address. *)
Theorem DetectFunctions_prologue_kind
    x86Decode arm64Decode DetectPrologues code baseAddr arch prologues edges :
  DetectPrologues code baseAddr arch = Ok prologues ->
  DetectCallSites x86Decode arm64Decode code baseAddr arch = Ok edges ->
  exists candidates,
    DetectFunctions x86Decode arm64Decode DetectPrologues code baseAddr arch = Ok candidates /\
    forall c, c ∈ candidates ->
      FunctionCandidate.PrologueType c =
        Prologue.Type_ <$> lastPrologueAt (FunctionCandidate.Address c) prologues /\
      (FunctionCandidate.PrologueType c = None <->
       forall p, p ∈ prologues -> Prologue.Address p <> FunctionCandidate.Address c).
Proof.
  intros Hp He. eexists. split; [by apply DetectFunctions_fused|].
  intros c Hc. apply elem_of_fused, entryAt_kind in Hc. split; [done|].
  rewrite Hc, <- lastPrologueAt_None.
  destruct (lastPrologueAt (FunctionCandidate.Address c) prologues); simpl; split; congruence.
Qed.

Lemma DetectFunctions_prologue_kind_witness :
  exists candidates,
    DetectFunctionsFull x86Fragment arm64Fragment classicThenCall 0 ArchAMD64 = Ok candidates /\
    forall c, c ∈ candidates ->
      FunctionCandidate.PrologueType c =
        Prologue.Type_ <$>
          lastPrologueAt (FunctionCandidate.Address c) classicThenCallPrologues /\
      (FunctionCandidate.PrologueType c = None <->
       forall p, p ∈ classicThenCallPrologues ->
                 Prologue.Address p <> FunctionCandidate.Address c).
Proof.
  apply (DetectFunctions_prologue_kind x86Fragment arm64Fragment
           (SpecModel.DetectPrologues x86Fragment arm64Fragment) classicThenCall 0 ArchAMD64
           classicThenCallPrologues classicThenCallEdges);
    vm_compute; reflexivity.
Defined.

Lemma entryAt_detection k p hits c :
  entryAt k p hits = Some c ->
  (FunctionCandidate.DetectionType c = DetectionPrologueOnly <-> hits = []) /\
  (FunctionCandidate.DetectionType c = DetectionBoth <->
   (is_Some p /\ 1 <= length hits) \/ 2 <= length hits) /\
  (FunctionCandidate.DetectionType c = DetectionJumpTarget <->
   p = None /\ exists e, hits = [e] /\ CallSiteEdge.Type_ e = CallSiteJump) /\
  (FunctionCandidate.DetectionType c = DetectionCallTarget <->
   p = None /\ exists e, hits = [e] /\ CallSiteEdge.Type_ e <> CallSiteJump).
Proof.
  destruct p as [p|], hits as [|h [|h' hits]]; simpl; intros H; try done;
    injection H as <-; simpl; try case_bool_decide.
  all: repeat split; try done.
  all: try (by exists h).
  all: try (left; split; [by eexists|simpl; lia]).
  all: try (right; simpl; lia).
  all: try (intros [[[? ?] ?]|?]; [done|simpl in *; lia]).
  all: try (intros [[? ?]|?]; simpl in *; lia).
  all: try (intros (? & ? & ? & ?); by simplify_eq).
Qed.

(** X4: the detection kind of a candidate is decided by what points at its
    address: prologue-only when no edge of confidence High or Medium does;
    both when a prologue record and at least one such edge do, or at least
    two such edges; call-target or jump-target when no prologue record and
    exactly one such edge does, according to whether that edge is a
    jump. *)
Theorem DetectFunctions_detection_kind
    x86Decode arm64Decode DetectPrologues code baseAddr arch prologues edges :
  DetectPrologues code baseAddr arch = Ok prologues ->
  DetectCallSites x86Decode arm64Decode code baseAddr arch = Ok edges ->
  exists candidates,
    DetectFunctions x86Decode arm64Decode DetectPrologues code baseAddr arch = Ok candidates /\
    forall c hits recorded,
      c ∈ candidates ->
      hits = hitsAt (FunctionCandidate.Address c) edges ->
      recorded = lastPrologueAt (FunctionCandidate.Address c) prologues ->
      (FunctionCandidate.DetectionType c = DetectionPrologueOnly <-> hits = []) /\
      (FunctionCandidate.DetectionType c = DetectionBoth <->
       (is_Some recorded /\ 1 <= length hits) \/ 2 <= length hits) /\
      (FunctionCandidate.DetectionType c = DetectionJumpTarget <->
       recorded = None /\ exists e, hits = [e] /\ CallSiteEdge.Type_ e = CallSiteJump) /\
      (FunctionCandidate.DetectionType c = DetectionCallTarget <->
       recorded = None /\ exists e, hits = [e] /\ CallSiteEdge.Type_ e <> CallSiteJump).
Proof.
  intros Hp He. eexists. split; [by apply DetectFunctions_fused|].
  intros c hits recorded Hc -> ->. by apply elem_of_fused, entryAt_detection in Hc.
Qed.

Lemma DetectFunctions_detection_kind_witness :
  exists candidates,
    DetectFunctionsFull x86Fragment arm64Fragment classicThenCall 0 ArchAMD64 = Ok candidates /\
    forall c hits recorded,
      c ∈ candidates ->
      hits = hitsAt (FunctionCandidate.Address c) classicThenCallEdges ->
      recorded = lastPrologueAt (FunctionCandidate.Address c) classicThenCallPrologues ->
      (FunctionCandidate.DetectionType c = DetectionPrologueOnly <-> hits = []) /\
      (FunctionCandidate.DetectionType c = DetectionBoth <->
       (is_Some recorded /\ 1 <= length hits) \/ 2 <= length hits) /\
      (FunctionCandidate.DetectionType c = DetectionJumpTarget <->
       recorded = None /\ exists e, hits = [e] /\ CallSiteEdge.Type_ e = CallSiteJump) /\
      (FunctionCandidate.DetectionType c = DetectionCallTarget <->
       recorded = None /\ exists e, hits = [e] /\ CallSiteEdge.Type_ e <> CallSiteJump).
Proof.
  apply (DetectFunctions_detection_kind x86Fragment arm64Fragment
           (SpecModel.DetectPrologues x86Fragment arm64Fragment) classicThenCall 0 ArchAMD64);
    vm_compute; reflexivity.
Defined.

Lemma entryAt_confidence k p hits c :
  entryAt k p hits = Some c ->
  (FunctionCandidate.Confidence c = ConfidenceHigh <->
   FunctionCandidate.DetectionType c = DetectionBoth) /\
  (FunctionCandidate.Confidence c = ConfidenceMedium <->
   FunctionCandidate.DetectionType c <> DetectionBoth).
Proof.
  destruct p as [p|], hits as [|h [|h' hits]]; simpl; intros H; try done;
    injection H as <-; simpl; try (split; split; done).
  case_bool_decide; split; split; done.
Qed.

(** X5: a candidate has confidence High exactly when its detection kind is
    both, and Medium otherwise; no candidate has confidence Low or
    None. *)
Theorem DetectFunctions_confidence
    x86Decode arm64Decode DetectPrologues code baseAddr arch candidates c :
  DetectFunctions x86Decode arm64Decode DetectPrologues code baseAddr arch = Ok candidates ->
  c ∈ candidates ->
  (FunctionCandidate.Confidence c = ConfidenceHigh <->
   FunctionCandidate.DetectionType c = DetectionBoth) /\
  (FunctionCandidate.Confidence c = ConfidenceMedium <->
   FunctionCandidate.DetectionType c <> DetectionBoth).
Proof.
  intros H Hc. apply DetectFunctions_Ok in H as (prologues & edges & _ & _ & ->).
  by apply elem_of_fused, entryAt_confidence in Hc.
Qed.

Lemma DetectFunctions_confidence_witness :
  (FunctionCandidate.Confidence twoCallsCandidate = ConfidenceHigh <->
   FunctionCandidate.DetectionType twoCallsCandidate = DetectionBoth) /\
  (FunctionCandidate.Confidence twoCallsCandidate = ConfidenceMedium <->
   FunctionCandidate.DetectionType twoCallsCandidate <> DetectionBoth).
Proof.
  apply (DetectFunctions_confidence x86Fragment arm64Fragment
           (SpecModel.DetectPrologues x86Fragment arm64Fragment) twoCallsOneTarget 0 ArchAMD64
           [twoCallsCandidate]).
  - vm_compute. reflexivity.
  - left.
Defined.

(** ** What every edge of a scan looks like *)

Lemma edgeOfAMD64_class inst addr e :
  edgeOfAMD64 inst addr = Some e ->
  (CallSiteEdge.Confidence e = ConfidenceNone <->
   CallSiteEdge.AddressMode e = AddressingModeRegisterIndirect) /\
  (CallSiteEdge.AddressMode e = AddressingModeRegisterIndirect ->
   CallSiteEdge.TargetAddr e = 0%Z) /\
  (CallSiteEdge.Confidence e = ConfidenceHigh -> CallSiteEdge.Type_ e = CallSiteCall) /\
  CallSiteEdge.Confidence e <> ConfidenceLow /\
  is_uint64 (CallSiteEdge.TargetAddr e).
Proof.
  assert (is_uint64 0) as Hz by (unfold is_uint64; lia).
  unfold edgeOfAMD64, extractTargetAMD64. intros H.
  destruct (x86asm.Op inst); try done;
    destruct (x86asm.arg 0 inst) as [|r|m|i|rel]; try done;
    repeat case_match; injection H as <-; simpl;
    repeat split; try done; apply uint64_range.
Qed.

Lemma edgeOfARM64_class inst addr e :
  edgeOfARM64 inst addr = Some e ->
  (CallSiteEdge.Confidence e = ConfidenceHigh <-> CallSiteEdge.Type_ e = CallSiteCall) /\
  (CallSiteEdge.Confidence e = ConfidenceLow -> CallSiteEdge.Type_ e = CallSiteJump) /\
  CallSiteEdge.AddressMode e = AddressingModePCRelative /\
  CallSiteEdge.Confidence e <> ConfidenceNone /\
  is_uint64 (CallSiteEdge.TargetAddr e).
Proof.
  unfold edgeOfARM64, extractTargetARM64, confidenceOfB. intros H.
  destruct (arm64asm.Op inst); try done;
    destruct (arm64asm.arg 0 inst); try done;
    repeat case_match; injection H as <-; simpl;
    repeat split; try done; apply uint64_range.
Qed.

(** X6: on every supported architecture, each edge a scan returns has a
    64-bit target; it has confidence None exactly when its addressing mode
    is register-indirect, and then its target is zero; confidence High
    occurs on calls only, and confidence Low on ARM64 jumps only. *)
Theorem DetectCallSites_edge_classes x86Decode arm64Decode code baseAddr arch edges e :
  is_uint64 baseAddr ->
  DetectCallSites x86Decode arm64Decode code baseAddr arch = Ok edges ->
  e ∈ edges ->
  is_uint64 (CallSiteEdge.TargetAddr e) /\
  (CallSiteEdge.Confidence e = ConfidenceNone <->
   CallSiteEdge.AddressMode e = AddressingModeRegisterIndirect) /\
  (CallSiteEdge.AddressMode e = AddressingModeRegisterIndirect ->
   CallSiteEdge.TargetAddr e = 0%Z) /\
  (CallSiteEdge.Confidence e = ConfidenceHigh -> CallSiteEdge.Type_ e = CallSiteCall) /\
  (CallSiteEdge.Confidence e = ConfidenceLow ->
   arch = ArchARM64 /\ CallSiteEdge.Type_ e = CallSiteJump).
Proof.
  intros Hb H Hin. destruct arch as [| |token]; simpl in H; [| |done].
  - apply detectCallSitesAMD64_origin in H; [|done]. rewrite Forall_forall in H.
    destruct (H e Hin) as (offset & inst & _ & _ & _ & _ & He).
    apply edgeOfAMD64_class in He as (Hnone & Hzero & Hhigh & Hlow & Ht).
    split; [done|]. split; [done|]. split; [done|]. split; [done|].
    intros Hl. by destruct Hlow.
  - apply detectCallSitesARM64_origin in H. rewrite Forall_forall in H.
    destruct (H e Hin) as (offset & inst & _ & _ & He).
    apply edgeOfARM64_class in He as (Hhigh & Hlow & Hmode & Hnone & Ht).
    split; [done|]. rewrite Hmode. split; [split; done|]. split; [done|].
    split; [by apply Hhigh|]. intros Hl. split; [done|by apply Hlow].
Qed.

Lemma DetectCallSites_edge_classes_witness :
  is_uint64 (CallSiteEdge.TargetAddr callRIPEdge) /\
  (CallSiteEdge.Confidence callRIPEdge = ConfidenceNone <->
   CallSiteEdge.AddressMode callRIPEdge = AddressingModeRegisterIndirect) /\
  (CallSiteEdge.AddressMode callRIPEdge = AddressingModeRegisterIndirect ->
   CallSiteEdge.TargetAddr callRIPEdge = 0%Z) /\
  (CallSiteEdge.Confidence callRIPEdge = ConfidenceHigh ->
   CallSiteEdge.Type_ callRIPEdge = CallSiteCall) /\
  (CallSiteEdge.Confidence callRIPEdge = ConfidenceLow ->
   ArchAMD64 = ArchARM64 /\ CallSiteEdge.Type_ callRIPEdge = CallSiteJump).
Proof.
  apply (DetectCallSites_edge_classes x86Fragment arm64Fragment callRIP 4096 ArchAMD64
           [callRIPEdge]).
  - unfold is_uint64. lia.
  - vm_compute. reflexivity.
  - left.
Defined.

(** ** The order of the edges *)

Section OrderAMD64.

Variable x86Decode : list byte -> option x86asm.Inst.
Variable code : list byte.
Variable baseAddr : Z.

(** An iteration that does not move the cursor is entered again and again:
    no amount of fuel lets the loop exit. *)
Lemma detectCallSitesAMD64_loop_stuck offset :
  offset < length code -> advanceAMD64 x86Decode code offset = offset ->
  forall fuel addr result,
    detectCallSitesAMD64_loop x86Decode fuel code offset addr result = None.
Proof.
  intros Hlt Hadv. induction fuel as [|fuel IH]; intros addr result.
  - cbn [detectCallSitesAMD64_loop]. by rewrite bool_decide_true.
  - rewrite detectCallSitesAMD64_loop_step by done. rewrite Hadv. apply IH.
Qed.

(** A property of cursor and result kept by every iteration that moves the
    cursor holds when the loop exits. *)
Lemma detectCallSitesAMD64_loop_state (I : nat -> list CallSiteEdge.t -> Prop) :
  (forall offset result,
      visitedAMD64 x86Decode code offset -> offset < length code ->
      offset < advanceAMD64 x86Decode code offset -> I offset result ->
      I (advanceAMD64 x86Decode code offset)
        (append_edge result
           (emitAMD64 x86Decode code offset (uint64 (baseAddr + Z.of_nat offset))))) ->
  forall fuel offset result out,
    visitedAMD64 x86Decode code offset -> I offset result ->
    detectCallSitesAMD64_loop x86Decode fuel code offset
      (uint64 (baseAddr + Z.of_nat offset)) result = Some out ->
    exists final, length code <= final /\ I final out.
Proof.
  intros HI. induction fuel as [|fuel IH]; intros offset result out Hv Hr H.
  - apply detectCallSitesAMD64_loop_fuel0 in H as [Hge ->]. by exists offset.
  - destruct (decide (offset < length code)) as [Hlt|Hge].
    + destruct (decide (advanceAMD64 x86Decode code offset = offset)) as [Hadv|Hadv].
      * by rewrite detectCallSitesAMD64_loop_stuck in H.
      * pose proof (advanceAMD64_ge x86Decode code offset) as Hge.
        rewrite detectCallSitesAMD64_loop_step in H by done.
        rewrite addr_advance in H by done.
        eapply IH; [| |exact H].
        -- by constructor.
        -- apply HI; try done. lia.
    + rewrite detectCallSitesAMD64_loop_exit in H by lia. injection H as <-.
      exists offset. split; [lia|done].
Qed.

Lemma emitAMD64_source offset addr e :
  emitAMD64 x86Decode code offset addr = Some e -> CallSiteEdge.SourceAddr e = addr.
Proof.
  unfold emitAMD64. destruct (isENDBR code offset); [done|].
  destruct (x86Decode (drop offset code)) as [inst|]; [|done].
  apply edgeOfAMD64_source.
Qed.

Lemma detectCallSitesAMD64_sorted edges :
  is_uint64 baseAddr ->
  (baseAddr + Z.of_nat (length code) <= 2 ^ 64)%Z ->
  detectCallSitesAMD64 x86Decode code baseAddr = Ok edges ->
  StronglySorted sourceLt edges.
Proof.
  intros Hb Hfit H. apply detectCallSitesAMD64_run in H; [|done].
  apply (detectCallSitesAMD64_loop_state
           (fun offset result =>
              StronglySorted sourceLt result /\
              Forall (fun e => (CallSiteEdge.SourceAddr e < baseAddr + Z.of_nat offset)%Z)
                result)) in H.
  - by destruct H as (final & _ & Hs & _).
  - intros offset result Hv Hlt Hadv [Hs Hbound].
    assert (uint64 (baseAddr + Z.of_nat offset) = (baseAddr + Z.of_nat offset)%Z) as Haddr
      by (apply uint64_small; unfold is_uint64 in *; lia).
    destruct (emitAMD64 x86Decode code offset (uint64 (baseAddr + Z.of_nat offset)))
      as [e|] eqn:He; simpl.
    + apply emitAMD64_source in He. rewrite Haddr in He. split.
      * apply StronglySorted_app_2; [|done|repeat constructor].
        intros x1 x2 Hx1 Hx2. apply list_elem_of_singleton in Hx2 as ->.
        rewrite Forall_forall in Hbound. unfold sourceLt. rewrite He. by apply Hbound.
      * apply Forall_app. split.
        -- eapply Forall_impl; [exact Hbound|]. intros x Hx. simpl in Hx. lia.
        -- repeat constructor. lia.
    + split; [done|]. eapply Forall_impl; [exact Hbound|]. intros x Hx. simpl in Hx. lia.
  - constructor.
  - split; constructor.
Qed.

End OrderAMD64.

Section OrderARM64.

Variable arm64Decode : list byte -> option arm64asm.Inst.
Variable code : list byte.
Variable baseAddr : Z.

Lemma detectCallSitesARM64_loop_sorted :
  is_uint64 baseAddr ->
  (baseAddr + Z.of_nat (length code) <= 2 ^ 64)%Z ->
  forall fuel offset result out,
    StronglySorted sourceLt result ->
    Forall (fun e => (CallSiteEdge.SourceAddr e < baseAddr + Z.of_nat offset)%Z) result ->
    detectCallSitesARM64_loop arm64Decode fuel code baseAddr offset result = Some out ->
    StronglySorted sourceLt out.
Proof.
  intros Hb Hfit. induction fuel as [|fuel IH]; intros offset result out Hs Hbound H.
  - simpl in H. case_bool_decide; [done|]. by injection H as <-.
  - destruct (decide (offset + 4 <= length code)) as [Hle|Hgt].
    + rewrite detectCallSitesARM64_loop_step in H by done.
      assert (uint64 (baseAddr + Z.of_nat offset) = (baseAddr + Z.of_nat offset)%Z) as Haddr
        by (apply uint64_small; unfold is_uint64 in *; lia).
      eapply IH; [| |exact H].
      * destruct (arm64Decode (take 4 (drop offset code))) as [inst|]; [|done]. simpl.
        destruct (edgeOfARM64 inst (uint64 (baseAddr + Z.of_nat offset))) as [e|] eqn:He;
          [|done].
        apply edgeOfARM64_Some in He as (_ & He & _). rewrite Haddr in He. simpl.
        apply StronglySorted_app_2; [|done|repeat constructor].
        intros x1 x2 Hx1 Hx2. apply list_elem_of_singleton in Hx2 as ->.
        rewrite Forall_forall in Hbound. unfold sourceLt. rewrite He. by apply Hbound.
      * assert (Forall (fun e => (CallSiteEdge.SourceAddr e <
                                  baseAddr + Z.of_nat (offset + 4))%Z) result) as Hbound'
          by (eapply Forall_impl; [exact Hbound|]; intros x Hx; simpl in Hx; lia).
        destruct (arm64Decode (take 4 (drop offset code))) as [inst|]; [|done]. simpl.
        destruct (edgeOfARM64 inst (uint64 (baseAddr + Z.of_nat offset))) as [e|] eqn:He;
          [|done].
        apply edgeOfARM64_Some in He as (_ & He & _). rewrite Haddr in He. simpl.
        apply Forall_app. split; [done|]. repeat constructor. lia.
    + rewrite detectCallSitesARM64_loop_exit in H by lia. by injection H as <-.
Qed.

End OrderARM64.

(** X7: when the buffer does not wrap around the address space, the edges
    of a scan are strictly ascending by source address: one edge per
    instruction at most, in scan order. *)
Theorem DetectCallSites_sources_ascending x86Decode arm64Decode code baseAddr arch edges :
  is_uint64 baseAddr ->
  (baseAddr + Z.of_nat (length code) <= 2 ^ 64)%Z ->
  DetectCallSites x86Decode arm64Decode code baseAddr arch = Ok edges ->
  StronglySorted sourceLt edges /\ NoDup (CallSiteEdge.SourceAddr <$> edges).
Proof.
  intros Hb Hfit H.
  assert (StronglySorted sourceLt edges) as Hs.
  { destruct arch as [| |token]; simpl in H; [| |done].
    - by eapply detectCallSitesAMD64_sorted.
    - apply of_loop_Ok in H.
      eapply detectCallSitesARM64_loop_sorted; [done|done| | |exact H]; constructor. }
  split; [done|].
  clear H. induction Hs as [|e l Hs IH Hall]; [constructor|].
  rewrite fmap_cons. constructor; [|done].
  intros Hin. apply list_elem_of_fmap in Hin as (e' & Heq & Hin).
  rewrite Forall_forall in Hall. specialize (Hall e' Hin). unfold sourceLt in Hall. lia.
Qed.

Lemma DetectCallSites_sources_ascending_witness :
  exists edges,
    DetectCallSites x86Fragment arm64Fragment callThenCallRAX 4096 ArchAMD64 = Ok edges /\
    length edges = 2 /\
    StronglySorted sourceLt edges /\ NoDup (CallSiteEdge.SourceAddr <$> edges).
Proof.
  eexists. split; [vm_compute; reflexivity|]. split; [reflexivity|].
  apply (DetectCallSites_sources_ascending x86Fragment arm64Fragment callThenCallRAX 4096
           ArchAMD64).
  - unfold is_uint64. lia.
  - vm_compute. discriminate.
  - vm_compute. reflexivity.
Defined.

(** ** Termination *)

Lemma x86Fragment_Len src inst : x86Fragment src = Some inst -> 1 <= x86asm.Len inst.
Proof.
  unfold x86Fragment. intros H.
  repeat case_match; try done; injection H as <-; simpl; lia.
Qed.

Section TerminationAMD64.

Variable x86Decode : list byte -> option x86asm.Inst.
Variable code : list byte.
Variable baseAddr : Z.

Lemma detectCallSitesAMD64_loop_total_visited :
  (forall offset,
      visitedAMD64 x86Decode code offset -> offset < length code ->
      offset < advanceAMD64 x86Decode code offset) ->
  forall fuel offset addr result,
    visitedAMD64 x86Decode code offset ->
    length code - offset <= fuel ->
    is_Some (detectCallSitesAMD64_loop x86Decode fuel code offset addr result).
Proof.
  intros Hadv. induction fuel as [|fuel IH]; intros offset addr result Hv Hf.
  - rewrite detectCallSitesAMD64_loop_exit by lia. done.
  - destruct (decide (offset < length code)) as [Hlt|Hge].
    + rewrite detectCallSitesAMD64_loop_step by done.
      pose proof (Hadv offset Hv Hlt). apply IH; [by constructor|lia].
    + rewrite detectCallSitesAMD64_loop_exit by lia. done.
Qed.

Lemma detectCallSitesAMD64_loop_never offset :
  is_uint64 baseAddr ->
  visitedAMD64 x86Decode code offset -> offset < length code ->
  advanceAMD64 x86Decode code offset = offset ->
  forall fuel, detectCallSitesAMD64_loop x86Decode fuel code 0 baseAddr [] = None.
Proof.
  intros Hb Hv Hlt Hadv fuel.
  destruct (detectCallSitesAMD64_loop x86Decode fuel code 0 baseAddr []) as [out|] eqn:H;
    [|done].
  rewrite <- (uint64_small baseAddr Hb) in H.
  rewrite <- (Z.add_0_r baseAddr) in H.
  destruct (detectCallSitesAMD64_loop_visits x86Decode code baseAddr fuel out offset H Hv)
    as (fuel' & result & H').
  by rewrite detectCallSitesAMD64_loop_stuck in H'.
Qed.

End TerminationAMD64.

(** X8: the AMD64 call-site scan returns when every position it stops at
    moves the cursor, which a decoder reporting positive lengths ensures;
    when the decoder reports length zero at one such position the loop
    never exits, whatever the number of iterations allowed. *)
Theorem detectCallSitesAMD64_termination x86Decode code baseAddr :
  is_uint64 baseAddr ->
  ((forall offset,
       visitedAMD64 x86Decode code offset -> offset < length code ->
       offset < advanceAMD64 x86Decode code offset) ->
   exists edges, detectCallSitesAMD64 x86Decode code baseAddr = Ok edges) /\
  ((forall src inst, x86Decode src = Some inst -> 1 <= x86asm.Len inst) ->
   exists edges, detectCallSitesAMD64 x86Decode code baseAddr = Ok edges) /\
  (forall offset inst,
      visitedAMD64 x86Decode code offset -> offset < length code ->
      isENDBR code offset = false ->
      x86Decode (drop offset code) = Some inst -> x86asm.Len inst = 0 ->
      detectCallSitesAMD64 x86Decode code baseAddr = Diverges /\
      forall fuel, detectCallSitesAMD64_loop x86Decode fuel code 0 baseAddr [] = None).
Proof.
  intros Hb. split; [|split].
  - intros Hadv. unfold detectCallSitesAMD64.
    destruct (detectCallSitesAMD64_loop_total_visited x86Decode code Hadv
                (S (length code)) 0 baseAddr []) as [edges ->]; [constructor|lia|].
    by exists edges.
  - apply detectCallSitesAMD64_returns.
  - intros offset inst Hv Hlt Hpad Hd Hlen.
    assert (advanceAMD64 x86Decode code offset = offset) as Hadv
      by (unfold advanceAMD64; rewrite Hpad, Hd, Hlen; lia).
    pose proof (detectCallSitesAMD64_loop_never x86Decode code baseAddr offset
                  Hb Hv Hlt Hadv) as Hnever.
    split; [|done]. unfold detectCallSitesAMD64. by rewrite Hnever.
Qed.

Lemma detectCallSitesAMD64_termination_witness :
  (exists edges, detectCallSitesAMD64 x86Fragment callThenCallRAX 4096 = Ok edges) /\
  detectCallSitesAMD64 (fun _ => Some (x86Inst x86asm.NOP [] 0)) [x90] 4096 = Diverges.
Proof.
  assert (is_uint64 4096) as Hb by (unfold is_uint64; lia).
  split.
  - destruct (detectCallSitesAMD64_termination x86Fragment callThenCallRAX
                4096 Hb) as (_ & Hreturns & _).
    apply Hreturns. apply x86Fragment_Len.
  - destruct (detectCallSitesAMD64_termination
                (fun _ => Some (x86Inst x86asm.NOP [] 0)) [x90] 4096 Hb) as (_ & _ & Hnever).
    apply (Hnever 0 (x86Inst x86asm.NOP [] 0)); try reflexivity.
    + constructor.
    + simpl. lia.
Defined.

(** ** The ARM64 scan as a map over words *)

Section WordsARM64.

Variable arm64Decode : list byte -> option arm64asm.Inst.

Lemma append_edge_option_list result (edge : option CallSiteEdge.t) :
  append_edge result edge = result ++ option_list edge.
Proof. destruct edge; simpl; [done|by rewrite app_nil_r]. Qed.

Lemma emitARM64_bind code baseAddr offset :
  option_list (inst ← arm64Decode (take 4 (drop offset code));
               edgeOfARM64 inst (uint64 (baseAddr + Z.of_nat offset))) =
  emitARM64 arm64Decode code baseAddr offset.
Proof. unfold emitARM64, insnLen. by destruct (arm64Decode (take 4 (drop offset code))). Qed.

Lemma detectCallSitesARM64_loop_words code baseAddr n :
  forall fuel offset result,
    offset + 4 * n <= length code -> length code < offset + 4 * n + 4 -> n <= fuel ->
    detectCallSitesARM64_loop arm64Decode fuel code baseAddr offset result =
    Some (result ++
          ((fun k => offset + 4 * k) <$> seq 0 n) ≫= emitARM64 arm64Decode code baseAddr).
Proof.
  induction n as [|n IH]; intros fuel offset result Hle Hgt Hf.
  - rewrite detectCallSitesARM64_loop_exit by lia. simpl. by rewrite app_nil_r.
  - destruct fuel as [|fuel]; [lia|].
    rewrite detectCallSitesARM64_loop_step by lia.
    rewrite IH by lia.
    rewrite append_edge_option_list, emitARM64_bind, <- app_assoc. do 2 f_equal.
    rewrite <- cons_seq, fmap_cons, bind_cons, Nat.mul_0_r, Nat.add_0_r. f_equal.
    rewrite <- fmap_S_seq, <- list_fmap_compose. f_equal.
    apply list_fmap_ext. intros i k _. simpl. lia.
Qed.

Lemma detectCallSitesARM64_words code baseAddr :
  detectCallSitesARM64 arm64Decode code baseAddr =
  Ok (wordOffsets code ≫= emitARM64 arm64Decode code baseAddr).
Proof.
  unfold detectCallSitesARM64, wordOffsets, insnLen.
  pose proof (Nat.div_mod_eq (length code) 4) as Hdm.
  pose proof (Nat.mod_upper_bound (length code) 4) as Hmod.
  rewrite (detectCallSitesARM64_loop_words code baseAddr (length code / 4)) by lia.
  done.
Qed.

Lemma wordOffsets_bound code offset :
  offset ∈ wordOffsets code -> offset + 4 <= length code.
Proof.
  unfold wordOffsets, insnLen. intros H.
  apply list_elem_of_fmap in H as (k & -> & Hk). apply elem_of_seq in Hk.
  pose proof (Nat.div_mod_eq (length code) 4). lia.
Qed.

Lemma wordOffsets_app c1 c2 :
  length c1 mod 4 = 0 ->
  wordOffsets (c1 ++ c2) = wordOffsets c1 ++ (Nat.add (length c1) <$> wordOffsets c2).
Proof.
  intros Hmod. unfold wordOffsets, insnLen.
  pose proof (Nat.div_mod_eq (length c1) 4) as Hdm.
  rewrite length_app.
  replace (length c1 + length c2) with (length c2 + (length c1 / 4) * 4) by lia.
  rewrite Nat.div_add by lia.
  replace (length c2 / 4 + length c1 / 4) with (length c1 / 4 + length c2 / 4) by lia.
  rewrite seq_app, fmap_app. apply (f_equal2 app); [done|].
  replace (0 + length c1 / 4) with (length c1 / 4 + 0) by lia.
  rewrite <- (fmap_add_seq (length c1 / 4) 0), <- !list_fmap_compose.
  apply list_fmap_ext. intros i k _. unfold compose. lia.
Qed.

Lemma emitARM64_app_l c1 c2 baseAddr offset :
  offset + 4 <= length c1 ->
  emitARM64 arm64Decode (c1 ++ c2) baseAddr offset = emitARM64 arm64Decode c1 baseAddr offset.
Proof.
  intros Hle. unfold emitARM64, insnLen.
  rewrite drop_app_le by lia. rewrite take_app_le by (rewrite length_drop; lia). done.
Qed.

Lemma emitARM64_app_r c1 c2 baseAddr offset :
  emitARM64 arm64Decode (c1 ++ c2) baseAddr (length c1 + offset) =
  emitARM64 arm64Decode c2 (uint64 (baseAddr + Z.of_nat (length c1))) offset.
Proof.
  unfold emitARM64. rewrite drop_app_add. rewrite uint64_add_l.
  replace (baseAddr + Z.of_nat (length c1 + offset))%Z
    with (baseAddr + Z.of_nat (length c1) + Z.of_nat offset)%Z by lia.
  done.
Qed.

Lemma emitARM64_take code baseAddr n offset :
  offset + 4 <= n ->
  emitARM64 arm64Decode (take n code) baseAddr offset =
  emitARM64 arm64Decode code baseAddr offset.
Proof.
  intros Hle. unfold emitARM64, insnLen.
  rewrite !take_drop_commute, take_take. by rewrite Nat.min_l by lia.
Qed.

Lemma emitARM64_length code baseAddr offset :
  length (emitARM64 arm64Decode code baseAddr offset) <= 1.
Proof.
  unfold emitARM64. destruct (arm64Decode _) as [inst|]; simpl; [|lia].
  destruct (edgeOfARM64 _ _); simpl; lia.
Qed.

Lemma bind_length_le {A B} (f : A -> list B) (l : list A) :
  (forall x, length (f x) <= 1) -> length (l ≫= f) <= length l.
Proof.
  intros Hf. induction l as [|x l IH]; [done|].
  rewrite bind_cons, length_app. simpl. specialize (Hf x). lia.
Qed.

End WordsARM64.

(** X9: the ARM64 scan treats each word on its own: scanning two buffers
    laid end to end, the first a whole number of words long, gives the
    edges of the first followed by the edges of the second scanned at the
    address where it starts. *)
Theorem detectCallSitesARM64_concatenation arm64Decode c1 c2 baseAddr :
  length c1 mod 4 = 0 ->
  exists e1 e2,
    detectCallSitesARM64 arm64Decode c1 baseAddr = Ok e1 /\
    detectCallSitesARM64 arm64Decode c2 (uint64 (baseAddr + Z.of_nat (length c1))) = Ok e2 /\
    detectCallSitesARM64 arm64Decode (c1 ++ c2) baseAddr = Ok (e1 ++ e2).
Proof.
  intros Hmod. eexists _, _. rewrite !detectCallSitesARM64_words.
  split; [done|]. split; [done|]. f_equal.
  rewrite wordOffsets_app, bind_app by done. f_equal.
  - apply Forall_bind_ext. apply Forall_forall. intros offset Hin.
    apply emitARM64_app_l. by apply wordOffsets_bound.
  - rewrite list_fmap_bind. apply Forall_bind_ext. apply Forall_forall. intros offset _.
    simpl. apply emitARM64_app_r.
Qed.

Lemma detectCallSitesARM64_concatenation_witness :
  exists e1 e2,
    detectCallSitesARM64 arm64Fragment blForward 4096 = Ok e1 /\
    detectCallSitesARM64 arm64Fragment bForward
      (uint64 (4096 + Z.of_nat (length blForward))) = Ok e2 /\
    detectCallSitesARM64 arm64Fragment blThenB 4096 = Ok (e1 ++ e2).
Proof.
  apply (detectCallSitesARM64_concatenation arm64Fragment blForward bForward 4096).
  reflexivity.
Defined.

(** X10: the ARM64 scan always returns; the bytes after the last whole
    word play no part in its result, and it returns at most one edge per
    whole word. *)
Theorem detectCallSitesARM64_whole_words arm64Decode code baseAddr :
  exists edges,
    detectCallSitesARM64 arm64Decode code baseAddr = Ok edges /\
    detectCallSitesARM64 arm64Decode (take (4 * (length code / 4)) code) baseAddr = Ok edges /\
    length edges <= length code / 4.
Proof.
  eexists. rewrite !detectCallSitesARM64_words. split; [done|].
  pose proof (Nat.div_mod_eq (length code) 4) as Hdm.
  assert (length (take (4 * (length code / 4)) code) = 4 * (length code / 4)) as Hlen
    by (rewrite length_take; lia).
  assert (wordOffsets (take (4 * (length code / 4)) code) = wordOffsets code) as Hw.
  { unfold wordOffsets, insnLen. rewrite Hlen.
    replace (4 * (length code / 4)) with (0 + (length code / 4) * 4) by lia.
    by rewrite Nat.div_add by lia. }
  split.
  - f_equal. rewrite Hw. apply Forall_bind_ext. apply Forall_forall. intros offset Hin.
    apply emitARM64_take. rewrite <- Hw in Hin. apply wordOffsets_bound in Hin. lia.
  - etransitivity; [apply bind_length_le, emitARM64_length|].
    unfold wordOffsets, insnLen. by rewrite length_fmap, length_seq.
Qed.

(** ** The records of the prologue scan *)

Lemma matchPatterns_sound prevInsn inst addr p :
  p ∈ prologo.matchPatterns prevInsn inst addr ->
  (exists push, prevInsn = Some push /\ isPushRBP push /\ isMovRBPRSP inst /\
                p = classicAt (uint64 (addr - Z.of_nat (x86asm.Len push)))) \/
  (gatedPattern inst addr p /\ prologo.atBoundary prevInsn = true).
Proof.
  unfold prologo.matchPatterns. rewrite !elem_of_app.
  intros [Hc | [Hn | [Hp | Hl]]].
  - left. unfold prologo.classic in Hc. destruct prevInsn as [q|]; [|by inversion Hc].
    case_match eqn:E; [|by inversion Hc].
    apply list_elem_of_singleton in Hc as ->.
    rewrite !andb_true_iff, !bool_decide_eq_true in E.
    destruct E as ((((H1 & H2) & H3) & H4) & H5).
    exists q. by repeat split.
  - right. unfold prologo.noFramePointer in Hn.
    case_match eqn:E; [|by inversion Hn].
    destruct (x86asm.arg 1 inst) as [| | |imm|] eqn:Harg; try by inversion Hn.
    case_match eqn:E'; [|by inversion Hn].
    apply list_elem_of_singleton in Hn as ->.
    rewrite andb_true_iff, !bool_decide_eq_true in E. destruct E as [H1 H2].
    rewrite andb_true_iff, bool_decide_eq_true in E'. destruct E' as [H3 H4].
    split; [|done]. left. split; [done|]. split; [done|]. by exists imm.
  - right. unfold prologo.pushOnly in Hp. case_match eqn:E; [|by inversion Hp].
    apply list_elem_of_singleton in Hp as ->.
    rewrite !andb_true_iff, !bool_decide_eq_true in E. destruct E as ((H1 & H2) & H3).
    split; [|done]. right. left. by repeat split.
  - right. unfold prologo.leaBased in Hl. case_match eqn:E; [|by inversion Hl].
    apply list_elem_of_singleton in Hl as ->.
    rewrite !andb_true_iff, !bool_decide_eq_true in E. destruct E as ((H1 & H2) & H3).
    split; [|done]. right. right. by repeat split.
Qed.

Lemma matchPatterns_length prevInsn inst addr :
  length (prologo.matchPatterns prevInsn inst addr) <= 1.
Proof.
  unfold prologo.matchPatterns, prologo.classic, prologo.noFramePointer,
    prologo.pushOnly, prologo.leaBased.
  destruct (x86asm.Op inst); simpl; rewrite ?andb_false_r; simpl;
    repeat case_match; simpl; lia.
Qed.

(** X11: every record of the prologue scan comes from a scanned position:
    a classic record sits at the address of a decoded [push rbp] that the
    scan stopped at and that is followed by [mov rbp, rsp]; every other
    record sits at the address of a matching instruction decoded right
    after the start, a decode failure or a [ret]. *)
Theorem DetectPrologues_records_sound x86Decode code baseAddr prologues p :
  is_uint64 baseAddr ->
  prologo.DetectPrologues x86Decode code baseAddr = Ok prologues ->
  p ∈ prologues ->
  exists offset prevInsn inst,
    visitedPrologues x86Decode code offset prevInsn /\ offset < length code /\
    x86Decode (drop offset code) = Some inst /\
    ((exists start push,
         p = classicAt (uint64 (baseAddr + Z.of_nat start)) /\
         prevInsn = Some push /\ start < length code /\
         x86Decode (drop start code) = Some push /\
         offset = start + x86asm.Len push /\
         isPushRBP push /\ isMovRBPRSP inst) \/
     (gatedPattern inst (uint64 (baseAddr + Z.of_nat offset)) p /\
      prologo.atBoundary prevInsn = true)).
Proof.
  intros Hb H Hin. apply DetectPrologues_run in H; [|done].
  revert p Hin. apply Forall_forall.
  eapply (DetectPrologues_loop_inv x86Decode code baseAddr);
    [|constructor|constructor|exact H].
  intros offset prevInsn p Hv Hlt Hp. unfold emitPrologues in Hp.
  destruct (x86Decode (drop offset code)) as [inst|] eqn:Hd; [|by inversion Hp].
  exists offset, prevInsn, inst. split; [done|]. split; [done|]. split; [done|].
  apply matchPatterns_sound in Hp as [(push & -> & Hpush & Hmov & ->)|Hg]; [|by right].
  left. inversion Hv as [|start prev Hv' Hlt' Ho Hd'].
  exists start, push. unfold advancePrologues. rewrite Hd'.
  rewrite uint64_sub_l.
  replace (baseAddr + Z.of_nat (start + x86asm.Len push) - Z.of_nat (x86asm.Len push))%Z
    with (baseAddr + Z.of_nat start)%Z by lia.
  do 5 (split; [done|]). by split.
Qed.

Lemma DetectPrologues_records_sound_witness :
  prologo.DetectPrologues x86Fragment nopGarbageThenSub 4096 =
    Ok [noFramePointerAt 4098 32] /\
  Prologue.Instructions (noFramePointerAt 4098 32) = "sub rsp, 0x30783230" /\
  exists offset prevInsn inst,
    visitedPrologues x86Fragment nopGarbageThenSub offset prevInsn /\
    offset < length nopGarbageThenSub /\
    x86Fragment (drop offset nopGarbageThenSub) = Some inst /\
    ((exists start push,
         noFramePointerAt 4098 32 = classicAt (uint64 (4096 + Z.of_nat start)) /\
         prevInsn = Some push /\ start < length nopGarbageThenSub /\
         x86Fragment (drop start nopGarbageThenSub) = Some push /\
         offset = start + x86asm.Len push /\
         isPushRBP push /\ isMovRBPRSP inst) \/
     (gatedPattern inst (uint64 (4096 + Z.of_nat offset)) (noFramePointerAt 4098 32) /\
      prologo.atBoundary prevInsn = true)).
Proof.
  split; [vm_compute; reflexivity|]. split; [vm_compute; reflexivity|].
  apply (DetectPrologues_records_sound x86Fragment nopGarbageThenSub 4096
           [noFramePointerAt 4098 32]).
  - unfold is_uint64. lia.
  - vm_compute. reflexivity.
  - left.
Defined.

Section OrderPrologues.

Variable x86Decode : list byte -> option x86asm.Inst.
Variable code : list byte.
Variable baseAddr : Z.

(** A property of cursor, window and result kept by every iteration holds
    when the loop exits. *)
Lemma DetectPrologues_loop_state
    (I : nat -> option x86asm.Inst -> list Prologue.t -> Prop) :
  (forall offset prevInsn result,
      visitedPrologues x86Decode code offset prevInsn -> offset < length code ->
      I offset prevInsn result ->
      I (advancePrologues x86Decode code offset) (x86Decode (drop offset code))
        (result ++ emitPrologues x86Decode code offset prevInsn
                     (uint64 (baseAddr + Z.of_nat offset)))) ->
  forall fuel offset prevInsn result out,
    visitedPrologues x86Decode code offset prevInsn -> I offset prevInsn result ->
    prologo.DetectPrologues_loop x86Decode fuel code offset
      (uint64 (baseAddr + Z.of_nat offset)) prevInsn result = Some out ->
    exists final window, I final window out.
Proof.
  intros HI. induction fuel as [|fuel IH]; intros offset prevInsn result out Hv Hr H.
  - apply DetectPrologues_loop_fuel0 in H as [_ ->]. by exists offset, prevInsn.
  - destruct (decide (offset < length code)) as [Hlt|Hge].
    + rewrite DetectPrologues_loop_step in H by done.
      rewrite addr_advance in H by apply advancePrologues_ge.
      eapply IH; [| |exact H].
      * by econstructor.
      * by apply HI.
    + rewrite DetectPrologues_loop_exit in H by lia. injection H as <-.
      by exists offset, prevInsn.
Qed.

(** The address of the instruction in the window, or of the cursor when
    the window is empty. *)
Lemma visitedPrologues_window_start offset prevInsn :
  visitedPrologues x86Decode code offset prevInsn ->
  match prevInsn with
  | Some q => x86asm.Len q <= offset
  | None => True
  end.
Proof.
  intros Hv. destruct prevInsn as [q|]; [|done].
  apply visitedPrologues_window in Hv as (start & _ & ->). lia.
Qed.

Lemma DetectPrologues_sorted prologues :
  is_uint64 baseAddr ->
  (baseAddr + Z.of_nat (length code) <= 2 ^ 64)%Z ->
  prologo.DetectPrologues x86Decode code baseAddr = Ok prologues ->
  StronglySorted recordLe prologues.
Proof.
  intros Hb Hfit H. apply DetectPrologues_run in H; [|done].
  apply (DetectPrologues_loop_state
           (fun offset prevInsn result =>
              StronglySorted recordLe result /\
              Forall (fun r => (Prologue.Address r <=
                                baseAddr + Z.of_nat offset -
                                Z.of_nat (from_option x86asm.Len 0%nat prevInsn))%Z) result))
    in H.
  - by destruct H as (final & window & Hs & _).
  - intros offset prevInsn result Hv Hlt [Hs Hbound].
    pose proof (visitedPrologues_window_start offset prevInsn Hv) as Hw.
    assert (uint64 (baseAddr + Z.of_nat offset) = (baseAddr + Z.of_nat offset)%Z) as Haddr
      by (apply uint64_small; unfold is_uint64 in *; lia).
    unfold advancePrologues, emitPrologues.
    destruct (x86Decode (drop offset code)) as [inst|] eqn:Hd; simpl.
    + assert (Forall (fun r =>
                (baseAddr + Z.of_nat offset - Z.of_nat (from_option x86asm.Len 0%nat prevInsn)
                 <= Prologue.Address r <= baseAddr + Z.of_nat offset)%Z)
                (prologo.matchPatterns prevInsn inst (uint64 (baseAddr + Z.of_nat offset))))
        as Hnew.
      { apply Forall_forall. intros r Hr.
        apply matchPatterns_address in Hr as [-> | (q & -> & ->)]; rewrite Haddr.
        - destruct prevInsn; simpl; lia.
        - simpl in *. rewrite uint64_small by (unfold is_uint64 in *; lia). lia. }
      split.
      * apply StronglySorted_app_2; [|done|].
        -- intros x1 x2 Hx1 Hx2. rewrite Forall_forall in Hbound, Hnew.
           specialize (Hbound x1 Hx1). specialize (Hnew x2 Hx2). simpl in *.
           unfold recordLe. lia.
        -- pose proof (matchPatterns_length prevInsn inst
                         (uint64 (baseAddr + Z.of_nat offset))) as Hlen.
           destruct (prologo.matchPatterns prevInsn inst _) as [|r [|r' l]];
             [constructor|repeat constructor|simpl in Hlen; lia].
      * apply Forall_app. split.
        -- eapply Forall_impl; [exact Hbound|]. intros r Hr. simpl in *.
           destruct prevInsn; simpl in *; lia.
        -- eapply Forall_impl; [exact Hnew|]. intros r Hr. simpl in *. lia.
    + rewrite app_nil_r. split; [done|].
      eapply Forall_impl; [exact Hbound|]. intros r Hr. simpl in *.
      destruct prevInsn; simpl in *; lia.
  - constructor.
  - split; constructor.
Qed.

Lemma DetectPrologues_count prologues :
  (forall src inst, x86Decode src = Some inst -> 1 <= x86asm.Len inst) ->
  is_uint64 baseAddr ->
  prologo.DetectPrologues x86Decode code baseAddr = Ok prologues ->
  length prologues <= length code.
Proof.
  intros Hlen Hb H. apply DetectPrologues_run in H; [|done].
  apply (DetectPrologues_loop_state
           (fun offset prevInsn result =>
              length result <= offset /\ length result <= length code)) in H.
  - by destruct H as (final & window & _ & Hs).
  - intros offset prevInsn result Hv Hlt [Ho Hc].
    unfold advancePrologues, emitPrologues.
    destruct (x86Decode (drop offset code)) as [inst|] eqn:Hd.
    + pose proof (Hlen _ _ Hd).
      pose proof (matchPatterns_length prevInsn inst (uint64 (baseAddr + Z.of_nat offset))).
      rewrite length_app. lia.
    + rewrite app_nil_r. lia.
  - constructor.
  - simpl. lia.
Qed.

End OrderPrologues.

(** X12: when the buffer does not wrap around the address space, the
    records of the prologue scan are ascending by address (not strictly:
    one address can be reported twice). *)
Theorem DetectPrologues_addresses_ascending x86Decode code baseAddr prologues :
  is_uint64 baseAddr ->
  (baseAddr + Z.of_nat (length code) <= 2 ^ 64)%Z ->
  prologo.DetectPrologues x86Decode code baseAddr = Ok prologues ->
  StronglySorted recordLe prologues.
Proof. apply DetectPrologues_sorted. Qed.

Lemma DetectPrologues_addresses_ascending_witness :
  prologo.DetectPrologues x86Fragment classicThenCall 0 = Ok classicThenCallPrologues /\
  StronglySorted recordLe classicThenCallPrologues.
Proof.
  split; [vm_compute; reflexivity|].
  apply (DetectPrologues_addresses_ascending x86Fragment classicThenCall 0).
  - unfold is_uint64. lia.
  - vm_compute. discriminate.
  - vm_compute. reflexivity.
Defined.



(** X14: for a decoder that reports positive lengths the prologue scan
    returns, with at most one record per byte of the buffer. *)
Theorem DetectPrologues_returns_bounded x86Decode code baseAddr :
  (forall src inst, x86Decode src = Some inst -> 1 <= x86asm.Len inst) ->
  is_uint64 baseAddr ->
  exists prologues,
    prologo.DetectPrologues x86Decode code baseAddr = Ok prologues /\
    length prologues <= length code.
Proof.
  intros Hlen Hb. destruct (DetectPrologues_returns x86Decode code baseAddr Hlen)
    as [prologues H].
  exists prologues. split; [done|]. by eapply DetectPrologues_count.
Qed.

Lemma DetectPrologues_returns_bounded_witness :
  exists prologues,
    prologo.DetectPrologues x86Fragment classicThenRet 4096 = Ok prologues /\
    length prologues <= length classicThenRet.
Proof.
  apply (DetectPrologues_returns_bounded x86Fragment classicThenRet 4096).
  - apply x86Fragment_Len.
  - unfold is_uint64. lia.
Defined.

(** ** The ELF front ends *)

Section FromELFProperties.

Variable x86Decode : list byte -> option x86asm.Inst.
Variable arm64Decode : list byte -> option arm64asm.Inst.
Variable DetectPrologues : list byte -> Z -> Arch -> res (list Prologue.t).
Variable Reader : Type.
Variable NewFile : Reader -> elf.Opened.

(** What a successful [DetectCallSitesFromELF] went through. *)
Lemma DetectCallSitesFromELF_Ok r f textSec edges :
  NewFile r = elf.Parsed f ->
  elf.Section_ f ".text" = Some textSec ->
  DetectCallSitesFromELF x86Decode arm64Decode Reader NewFile r = Ok edges ->
  exists arch raw,
    DetectCallSites x86Decode arm64Decode (elf.Data textSec) (elf.Addr textSec) arch = Ok raw /\
    edges = filter (inText textSec) raw.
Proof.
  unfold DetectCallSitesFromELF. intros -> -> H.
  destruct (elf.DataErr textSec); try done;
    destruct (elf.Machine_ f); try done.
  - exists ArchAMD64. simpl.
    destruct (detectCallSitesAMD64 _ _ _) as [raw| |]; try done.
    injection H as <-. by exists raw.
  - exists ArchARM64. simpl.
    destruct (detectCallSitesARM64 _ _ _) as [raw| |]; try done.
    injection H as <-. by exists raw.
  - exists ArchAMD64. simpl.
    destruct (detectCallSitesAMD64 _ _ _) as [raw| |]; try done.
    injection H as <-. by exists raw.
  - exists ArchARM64. simpl.
    destruct (detectCallSitesARM64 _ _ _) as [raw| |]; try done.
    injection H as <-. by exists raw.
Qed.

Lemma DetectCallSites_resolved code baseAddr arch raw e :
  is_uint64 baseAddr ->
  DetectCallSites x86Decode arm64Decode code baseAddr arch = Ok raw ->
  e ∈ raw ->
  CallSiteEdge.Confidence e <> ConfidenceNone ->
  CallSiteEdge.AddressMode e <> AddressingModeRegisterIndirect.
Proof.
  intros Hb H Hin Hc. destruct arch as [| |token]; simpl in H; [| |done].
  - apply detectCallSitesAMD64_origin in H; [|done]. rewrite Forall_forall in H.
    destruct (H e Hin) as (offset & inst & _ & _ & _ & _ & He).
    apply edgeOfAMD64_class in He as (Hnone & _). intros Hm. by apply Hc, Hnone.
  - apply detectCallSitesARM64_origin in H. rewrite Forall_forall in H.
    destruct (H e Hin) as (offset & inst & _ & _ & He).
    apply edgeOfARM64_class in He as (_ & _ & Hmode & _). by rewrite Hmode.
Qed.

End FromELFProperties.

(** X15: the edges [DetectCallSitesFromELF] returns are edges of the scan
    of the bytes of [.text] at the section's address, in scan order; each
    has a resolved target (confidence other than None, addressing mode
    other than register-indirect) that lies inside the section; when the
    end of the section, computed in 64 bits, does not exceed its start,
    no edge is returned. *)
Theorem DetectCallSitesFromELF_targets_in_text
    x86Decode arm64Decode Reader NewFile r f textSec edges :
  NewFile r = elf.Parsed f ->
  elf.Section_ f ".text" = Some textSec ->
  is_uint64 (elf.Addr textSec) ->
  DetectCallSitesFromELF x86Decode arm64Decode Reader NewFile r = Ok edges ->
  (exists arch raw,
      DetectCallSites x86Decode arm64Decode (elf.Data textSec) (elf.Addr textSec) arch
        = Ok raw /\
      sublist edges raw /\
      forall e, e ∈ edges <-> e ∈ raw /\ inText textSec e) /\
  (forall e, e ∈ edges ->
     (elf.Addr textSec <= CallSiteEdge.TargetAddr e <
      uint64 (elf.Addr textSec + elf.Size textSec))%Z /\
     CallSiteEdge.Confidence e <> ConfidenceNone /\
     CallSiteEdge.AddressMode e <> AddressingModeRegisterIndirect) /\
  ((uint64 (elf.Addr textSec + elf.Size textSec) <= elf.Addr textSec)%Z -> edges = []).
Proof.
  intros Hnew Hsec Hb H.
  destruct (DetectCallSitesFromELF_Ok _ _ _ _ _ _ _ _ Hnew Hsec H) as (arch & raw & Hraw & ->).
  split; [|split].
  - exists arch, raw. split; [done|]. split; [apply sublist_filter|].
    intros e. rewrite list_elem_of_filter. tauto.
  - intros e He. apply list_elem_of_filter in He as [(Hc & Hlo & Hhi) Hin].
    split; [lia|]. split; [done|]. by eapply DetectCallSites_resolved.
  - intros Hwrap. destruct (filter (inText textSec) raw) as [|e l] eqn:E; [done|].
    assert (e ∈ filter (inText textSec) raw) as He by (rewrite E; left).
    apply list_elem_of_filter in He as [(_ & Hlo & Hhi) _]. lia.
Qed.

Lemma DetectCallSitesFromELF_targets_in_text_witness :
  DetectCallSitesFromELF x86Fragment arm64Fragment elf.Opened opened
    (elfOf elf.EM_X86_64 0 classicThenCall) = Ok classicThenCallEdges /\
  forall e, e ∈ classicThenCallEdges ->
    (0 <= CallSiteEdge.TargetAddr e < uint64 (0 + 21))%Z /\
    CallSiteEdge.Confidence e <> ConfidenceNone /\
    CallSiteEdge.AddressMode e <> AddressingModeRegisterIndirect.
Proof.
  split; [vm_compute; reflexivity|].
  apply (DetectCallSitesFromELF_targets_in_text x86Fragment arm64Fragment elf.Opened opened
           (elfOf elf.EM_X86_64 0 classicThenCall)
           {| elf.Machine_ := elf.EM_X86_64; elf.Sections := [textOf 0 classicThenCall] |}
           (textOf 0 classicThenCall) classicThenCallEdges).
  - reflexivity.
  - reflexivity.
  - unfold is_uint64. simpl. lia.
  - vm_compute. reflexivity.
Defined.

(** X16: [DetectFunctionsFromELF] runs [DetectFunctions] on the bytes of
    [.text] and filters nothing: the target of every edge of confidence
    High or Medium of the scan is the address of a candidate, inside the
    section or not. *)
Theorem DetectFunctionsFromELF_keeps_every_target
    x86Decode arm64Decode DetectPrologues Reader NewFile r f textSec arch prologues raw :
  NewFile r = elf.Parsed f ->
  elf.Section_ f ".text" = Some textSec ->
  (forall err, elf.DataErr textSec <> elf.ReadError err) ->
  (elf.Machine_ f = elf.EM_X86_64 /\ arch = ArchAMD64) \/
  (elf.Machine_ f = elf.EM_AARCH64 /\ arch = ArchARM64) ->
  DetectPrologues (elf.Data textSec) (elf.Addr textSec) arch = Ok prologues ->
  DetectCallSites x86Decode arm64Decode (elf.Data textSec) (elf.Addr textSec) arch = Ok raw ->
  exists candidates,
    DetectFunctionsFromELF x86Decode arm64Decode DetectPrologues Reader NewFile r
      = Ok candidates /\
    DetectFunctions x86Decode arm64Decode DetectPrologues
      (elf.Data textSec) (elf.Addr textSec) arch = Ok candidates /\
    forall e, e ∈ raw ->
      CallSiteEdge.Confidence e = ConfidenceHigh \/
      CallSiteEdge.Confidence e = ConfidenceMedium ->
      CallSiteEdge.TargetAddr e ∈ FunctionCandidate.Address <$> candidates.
Proof.
  intros Hnew Hsec Hdata Hm Hp Hraw.
  exists (sortedCandidates (fuse prologues raw)).
  pose proof (DetectFunctions_fused x86Decode arm64Decode DetectPrologues _ _ _ _ _ Hp Hraw)
    as Hdf.
  split; [|split; [done|]].
  - unfold DetectFunctionsFromELF. rewrite Hnew, Hsec.
    destruct (elf.DataErr textSec) as [| |err] eqn:E; [| |by destruct (Hdata err)];
      by destruct Hm as [[-> ->]|[-> ->]].
  - intros e Hin Hc. apply fused_addresses. right. by exists e.
Qed.

Lemma DetectFunctionsFromELF_keeps_every_target_witness :
  DetectCallSitesFromELF x86Fragment arm64Fragment elf.Opened opened
    (elfOf elf.EM_X86_64 0 callRel32) = Ok [] /\
  exists candidates,
    DetectFunctionsFromELF x86Fragment arm64Fragment
      (SpecModel.DetectPrologues x86Fragment arm64Fragment) elf.Opened opened
      (elfOf elf.EM_X86_64 0 callRel32) = Ok candidates /\
    DetectFunctionsFull x86Fragment arm64Fragment callRel32 0 ArchAMD64 = Ok candidates /\
    forall e, e ∈ [callRel32Edge] ->
      CallSiteEdge.Confidence e = ConfidenceHigh \/
      CallSiteEdge.Confidence e = ConfidenceMedium ->
      CallSiteEdge.TargetAddr e ∈ FunctionCandidate.Address <$> candidates.
Proof.
  split; [vm_compute; reflexivity|].
  apply (DetectFunctionsFromELF_keeps_every_target x86Fragment arm64Fragment
           (SpecModel.DetectPrologues x86Fragment arm64Fragment) elf.Opened opened
           (elfOf elf.EM_X86_64 0 callRel32)
           {| elf.Machine_ := elf.EM_X86_64; elf.Sections := [textOf 0 callRel32] |}
           (textOf 0 callRel32) ArchAMD64 []).
  - reflexivity.
  - reflexivity.
  - intros err. discriminate.
  - left. split; reflexivity.
  - vm_compute. reflexivity.
  - vm_compute. reflexivity.
Defined.

(** X17: the front ends fail for four reasons only, tested in this order:
    the file does not parse, it has no [.text] section, reading the
    section fails with an error other than end-of-file, the machine is
    neither x86-64 nor AArch64.  The scans add no error of their own, and
    the prologue front end of package prologo does not test the machine:
    it fails for the first three reasons only. *)
Theorem front_ends_fail_exactly_when x86Decode arm64Decode Reader NewFile r :
  ((exists msg,
       DetectCallSitesFromELF x86Decode arm64Decode Reader NewFile r = Err msg) <->
   match NewFile r with
   | elf.Malformed _ => True
   | elf.Parsed f =>
       match elf.Section_ f ".text" with
       | None => True
       | Some textSec =>
           (exists err, elf.DataErr textSec = elf.ReadError err) \/
           (exists name, elf.Machine_ f = elf.EM_Other name)
       end
   end) /\
  ((exists msg,
       prologo.DetectProloguesFromELF x86Decode Reader NewFile r = Err msg) <->
   match NewFile r with
   | elf.Malformed _ => True
   | elf.Parsed f =>
       match elf.Section_ f ".text" with
       | None => True
       | Some textSec => exists err, elf.DataErr textSec = elf.ReadError err
       end
   end).
Proof.
  unfold DetectCallSitesFromELF, prologo.DetectProloguesFromELF, prologo.DetectPrologues,
    detectCallSitesAMD64, detectCallSitesARM64.
  destruct (NewFile r) as [f|err]; [|split; split; try done; intros _; by eexists].
  destruct (elf.Section_ f ".text") as [textSec|];
    [|split; split; try done; intros _; by eexists].
  split.
  - destruct (elf.DataErr textSec) as [| |err]; destruct (elf.Machine_ f) as [| |name];
      try match goal with
          | |- context [of_loop ?o] => destruct o
          end; simpl; split;
      try (intros [msg Hm]; done);
      try (intros [[err' He]|[name' Hn]]; done);
      try (intros _; by eexists);
      try (intros _; right; by eexists);
      try (intros _; left; by eexists).
  - destruct (elf.DataErr textSec) as [| |err];
      try match goal with
          | |- context [of_loop ?o] => destruct o
          end; simpl; split;
      try (intros [msg Hm]; done);
      try (intros [err' He]; done);
      try (intros _; by eexists).
Qed.

(** ** Encoding a branch and scanning it back *)

Lemma byteZ_byteOfZ z : byteZ (byteOfZ z) = (z mod 256)%Z.
Proof.
  unfold byteZ, byteOfZ.
  pose proof (Z.mod_pos_bound z 256 ltac:(lia)) as Hr.
  destruct (Byte.of_N (Z.to_N (z mod 256))) as [b|] eqn:E.
  - apply Byte.to_of_N in E. simpl. rewrite E. lia.
  - apply Byte.of_N_None_iff in E. lia.
Qed.

Lemma leZ_PutUint32 v : (0 <= v < 2 ^ 32)%Z -> leZ (PutUint32 v) = v.
Proof.
  intros Hv. unfold PutUint32, leZ. rewrite !byteZ_byteOfZ, !Z.shiftr_div_pow2 by lia.
  change (2 ^ 8)%Z with 256%Z. change (2 ^ 16)%Z with 65536%Z.
  change (2 ^ 24)%Z with 16777216%Z. change (2 ^ 32)%Z with 4294967296%Z in Hv.
  Z.div_mod_to_equations. lia.
Qed.

Lemma signed_mod bits d :
  (0 < bits)%Z -> (- 2 ^ (bits - 1) <= d < 2 ^ (bits - 1))%Z ->
  signed bits (d mod 2 ^ bits) = d.
Proof.
  intros Hbits Hd. unfold signed.
  assert (2 ^ bits = 2 * 2 ^ (bits - 1))%Z as Hpow
    by (rewrite <- Z.pow_succ_r by lia; f_equal; lia).
  assert (0 < 2 ^ (bits - 1))%Z as Hpos by (apply Z.pow_pos_nonneg; lia).
  destruct (decide (0 <= d)%Z) as [Hnn|Hneg].
  - rewrite Z.mod_small by lia. by rewrite bool_decide_true by lia.
  - replace (d mod 2 ^ bits)%Z with (d + 2 ^ bits)%Z.
    + rewrite bool_decide_false by lia. lia.
    + symmetry. rewrite <- (Z.mod_add d 1) by lia. rewrite Z.mod_small by lia. lia.
Qed.


Section RoundTripAMD64.

Variable x86Decode : list byte -> option x86asm.Inst.
Variable code : list byte.
Variable offset : nat.
Variable opByte : byte.
Variable rel : Z.

Hypothesis Hroom : offset + 5 <= length code.




End RoundTripAMD64.








Lemma leZ_arm64Insn w : (0 <= w < 2 ^ 32)%Z -> leZ (arm64Insn w) = w.
Proof. apply leZ_PutUint32. Qed.

Lemma land_high_low a b : (0 <= b < 2 ^ 26)%Z -> Z.land (a * 2 ^ 26) b = 0%Z.
Proof.
  intros Hb. apply Z.bits_inj'. intros n Hn.
  rewrite Z.land_spec, Z.bits_0.
  destruct (decide (n < 26)%Z) as [Hlow|Hhigh].
  - rewrite Z.mul_pow2_bits_low by lia. done.
  - rewrite <- (Z.mod_small b (2 ^ 26)) by lia.
    rewrite Z.mod_pow2_bits_high by lia. apply andb_false_r.
Qed.

Lemma lor_high_low a b : (0 <= b < 2 ^ 26)%Z -> Z.lor (a * 2 ^ 26) b = (a * 2 ^ 26 + b)%Z.
Proof.
  intros Hb. pose proof (land_high_low a b Hb) as Hdisjoint.
  rewrite <- Z.lxor_lor by done. symmetry. by apply Z.add_nocarry_lxor.
Qed.

(** The word [arm64BranchInsn] builds: the opcode bits are those of
    [opBase] and the 26-bit immediate is the distance in words. *)
Lemma arm64BranchInsn_fields opBase source target :
  opBase = 0x94000000%Z \/ opBase = 0x14000000%Z ->
  is_uint64 source -> is_uint64 target ->
  ((target - source) mod 4 = 0)%Z ->
  (- 2 ^ 27 <= target - source < 2 ^ 27)%Z ->
  (0 <= arm64BranchInsn opBase source target < 2 ^ 32)%Z /\
  Z.land (arm64BranchInsn opBase source target) 0xFC000000 = opBase /\
  (4 * signed 26 (Z.land (arm64BranchInsn opBase source target) 0x3FFFFFF))%Z =
    (target - source)%Z.
Proof.
  intros Hop Hs Ht Hal Hrange. unfold arm64BranchInsn, uint64.
  rewrite (signed_mod 64) by (simpl; lia).
  apply Z.mod_divide in Hal as [k Hk]; [|lia]. rewrite Hk.
  rewrite Z.quot_mul by lia.
  change 0x03FFFFFF%Z with (Z.ones 26). rewrite Z.land_ones by lia.
  assert ((k mod 2 ^ 32) mod 2 ^ 26 = k mod 2 ^ 26)%Z as ->.
  { change (2 ^ 32)%Z with (2 ^ 26 * 64)%Z. change (2 ^ 26)%Z with 67108864%Z.
    Z.div_mod_to_equations. lia. }
  pose proof (Z.mod_pos_bound k (2 ^ 26) ltac:(lia)) as Himm.
  assert (exists c, opBase = c * 2 ^ 26 /\ 0 <= c < 64 /\
                    Z.land opBase 0xFC000000 = opBase)%Z as (c & Hc & Hcr & Hmask).
  { destruct Hop as [-> | ->]; [exists 37%Z|exists 5%Z];
      (split; [reflexivity|split; [lia|reflexivity]]). }
  assert (Z.lor opBase (k mod 2 ^ 26) = opBase + k mod 2 ^ 26)%Z as Hsum
    by (rewrite Hc; by apply lor_high_low).
  split; [|split].
  - rewrite Hsum, Hc. change (2 ^ 32)%Z with (64 * 2 ^ 26)%Z. nia.
  - rewrite Z.land_lor_distr_l, Hmask.
    change 0xFC000000%Z with (63 * 2 ^ 26)%Z.
    rewrite (Z.land_comm (k mod 2 ^ 26)), land_high_low by done. apply Z.lor_0_r.
  - rewrite Hsum, Z.land_ones by lia. rewrite Hc.
    rewrite Z.add_comm, Z.mod_add by lia. rewrite Z.mod_mod by lia.
    rewrite (signed_mod 26) by (simpl; lia). lia.
Qed.

Lemma wordOffsets_elem code offset :
  offset mod 4 = 0 -> offset + 4 <= length code -> offset ∈ wordOffsets code.
Proof.
  intros Hal Hle. unfold wordOffsets, insnLen.
  pose proof (Nat.div_mod_eq offset 4) as Ho.
  pose proof (Nat.div_mod_eq (length code) 4) as Hc.
  pose proof (Nat.mod_upper_bound (length code) 4) as Hm.
  apply list_elem_of_fmap. exists (offset / 4). split; [lia|].
  apply elem_of_seq. lia.
Qed.

(** X20: a branch word built by [arm64BranchInsn] is read back by the
    scan: for a word-aligned distance within reach of the 26-bit
    immediate, the word has the opcode bits of [opBase] and the distance
    as immediate, and when it sits at an aligned offset of the buffer and
    the decoder reads it as BL (or B) with that immediate, the scan has
    the call edge of confidence High (or the jump edge of confidence
    Medium) from there to the target. *)
Theorem arm64BranchInsn_round_trip
    arm64Decode code baseAddr offset opBase target op cfType confidence edges :
  (opBase = 0x94000000%Z /\ op = arm64asm.BL /\
   cfType = CallSiteCall /\ confidence = ConfidenceHigh) \/
  (opBase = 0x14000000%Z /\ op = arm64asm.B /\
   cfType = CallSiteJump /\ confidence = ConfidenceMedium) ->
  is_uint64 baseAddr -> is_uint64 target ->
  ((target - uint64 (baseAddr + Z.of_nat offset)) mod 4 = 0)%Z ->
  (- 2 ^ 27 <= target - uint64 (baseAddr + Z.of_nat offset) < 2 ^ 27)%Z ->
  offset mod 4 = 0 -> offset + 4 <= length code ->
  take 4 (drop offset code) =
    arm64Insn (arm64BranchInsn opBase (uint64 (baseAddr + Z.of_nat offset)) target) ->
  arm64Decode (take 4 (drop offset code)) =
    Some (arm64Inst op
            [arm64asm.APCRel
               (4 * signed 26 (Z.land (leZ (take 4 (drop offset code))) 0x3FFFFFF))]) ->
  detectCallSitesARM64 arm64Decode code baseAddr = Ok edges ->
  Z.land (arm64BranchInsn opBase (uint64 (baseAddr + Z.of_nat offset)) target) 0xFC000000
    = opBase /\
  directEdge (uint64 (baseAddr + Z.of_nat offset)) target cfType confidence ∈ edges.
Proof.
  intros Hop Hb Ht Hal Hrange Haligned Hle Hword Hd H.
  assert (opBase = 0x94000000%Z \/ opBase = 0x14000000%Z) as Hbase
    by (destruct Hop as [[-> _]|[-> _]]; [by left|by right]).
  destruct (arm64BranchInsn_fields opBase (uint64 (baseAddr + Z.of_nat offset)) target
              Hbase (uint64_range _) Ht Hal Hrange) as (Hw & Hbits & Himm).
  split; [done|].
  rewrite detectCallSitesARM64_words in H. injection H as <-.
  apply list_elem_of_bind. exists offset. split; [|by apply wordOffsets_elem].
  unfold emitARM64, insnLen. rewrite Hd, Hword, leZ_arm64Insn, Himm by done.
  assert (uint64 (uint64 (baseAddr + Z.of_nat offset) +
                  uint64 (target - uint64 (baseAddr + Z.of_nat offset))) = target)
    as Htarget.
  { rewrite uint64_add_r.
    replace (uint64 (baseAddr + Z.of_nat offset) +
             (target - uint64 (baseAddr + Z.of_nat offset)))%Z with target by lia.
    by apply uint64_small. }
  unfold edgeOfARM64, extractTargetARM64, confidenceOfB, directEdge.
  destruct Hop as [(_ & -> & -> & ->)|(_ & -> & -> & ->)]; simpl;
    rewrite Htarget; left.
Qed.

Lemma arm64BranchInsn_round_trip_witness :
  arm64BranchInsn 0x94000000 4096 8192 = 0x94000400%Z /\
  Z.land (arm64BranchInsn 0x94000000 (uint64 (4096 + Z.of_nat 0)) 8192) 0xFC000000
    = 0x94000000%Z /\
  directEdge (uint64 (4096 + Z.of_nat 0)) 8192 CallSiteCall ConfidenceHigh ∈ [blForwardEdge].
Proof.
  split; [vm_compute; reflexivity|].
  apply (arm64BranchInsn_round_trip arm64Fragment blForward 4096 0 0x94000000 8192
           arm64asm.BL CallSiteCall ConfidenceHigh [blForwardEdge]).
  - left. repeat split; reflexivity.
  - unfold is_uint64. lia.
  - unfold is_uint64. lia.
  - vm_compute. reflexivity.
  - vm_compute. split; [discriminate|reflexivity].
  - reflexivity.
  - simpl. lia.
  - vm_compute. reflexivity.
  - vm_compute. reflexivity.
  - vm_compute. reflexivity.
Defined.

(** ** The scans, exactly *)

(** X21: the ARM64 scan always returns, and its edges are exactly those
    of the words at offsets that are multiples of four, decoded as BL or
    B with a PC-relative first operand: a call of confidence High for BL,
    a jump for B, of confidence Low when one of its operands is a
    condition and Medium otherwise.  A word whose first operand is not
    PC-relative (a B whose first operand is its condition, say) gives no
    edge. *)
Theorem detectCallSitesARM64_exact arm64Decode code baseAddr :
  exists edges,
    detectCallSitesARM64 arm64Decode code baseAddr = Ok edges /\
    (forall e,
        e ∈ edges <->
        exists offset inst pcrel,
          offset mod 4 = 0 /\ offset + 4 <= length code /\
          arm64Decode (take 4 (drop offset code)) = Some inst /\
          arm64asm.arg 0 inst = arm64asm.APCRel pcrel /\
          ((arm64asm.Op inst = arm64asm.BL /\
            e = directEdge (uint64 (baseAddr + Z.of_nat offset))
                  (uint64 (uint64 (baseAddr + Z.of_nat offset) + uint64 pcrel))
                  CallSiteCall ConfidenceHigh) \/
           (arm64asm.Op inst = arm64asm.B /\
            e = directEdge (uint64 (baseAddr + Z.of_nat offset))
                  (uint64 (uint64 (baseAddr + Z.of_nat offset) + uint64 pcrel))
                  CallSiteJump (confidenceOfB inst)))) /\
    (forall offset inst,
        arm64Decode (take 4 (drop offset code)) = Some inst ->
        (forall pcrel, arm64asm.arg 0 inst <> arm64asm.APCRel pcrel) ->
        emitARM64 arm64Decode code baseAddr offset = []).
Proof.
  eexists. split; [apply detectCallSitesARM64_words|]. split.
  - intros e. rewrite list_elem_of_bind. split.
    + intros (offset & He & Hin).
      pose proof (wordOffsets_bound _ _ Hin) as Hle.
      assert (offset mod 4 = 0) as Hal.
      { unfold wordOffsets, insnLen in Hin. apply list_elem_of_fmap in Hin as (k & -> & _).
        by rewrite Nat.mul_comm, Nat.Div0.mod_mul. }
      unfold emitARM64, insnLen in He.
      destruct (arm64Decode (take 4 (drop offset code))) as [inst|] eqn:Hd;
        [|by inversion He].
      unfold edgeOfARM64, extractTargetARM64 in He.
      destruct (arm64asm.Op inst) eqn:Hop; try (by inversion He);
        destruct (arm64asm.arg 0 inst) as [| | |pcrel| | |] eqn:Harg;
        try (by inversion He); simpl in He;
        apply list_elem_of_singleton in He as ->;
        exists offset, inst, pcrel; (do 4 (split; [done|])); [by right|by left].
    + intros (offset & inst & pcrel & Hal & Hle & Hd & Harg & He).
      exists offset. split; [|by apply wordOffsets_elem].
      unfold emitARM64, insnLen. rewrite Hd. unfold edgeOfARM64, extractTargetARM64.
      destruct He as [[-> ->]|[-> ->]]; rewrite Harg; simpl; left.
  - intros offset inst Hd Harg. unfold emitARM64, insnLen. rewrite Hd.
    unfold edgeOfARM64, extractTargetARM64.
    destruct (arm64asm.arg 0 inst) as [| | |pcrel| | |] eqn:E;
      try (by destruct (arm64asm.Op inst)).
    by destruct (Harg pcrel).
Qed.




